(** * Memory blocks of the coding agent: store, manager, compiler, tools

    A shallow embedding of [core/memory/compiler.ts], [core/memory/database.ts],
    [core/memory/manager.ts] and [core/memory/tools.ts], and the properties the
    specification states about them.

    Conventions of the embedding:
    - a JavaScript string is the list of its UTF-16 code units, so [length]
      is the [.length] of the source;
    - numbers that the program only uses as integers ([charLimit], [version],
      string lengths) are [Z];
    - [new Date().toISOString()] is an argument [now] of each operation;
    - [randomUUID()] draws from a counter kept in the database state, so two
      draws never collide;
    - a thrown exception is the [Throw] case of a result; state changes made
      before the throw stay (the source opens no SQL transaction);
    - [console.log] calls are not modelled. *)

From Stdlib Require Import Strings.String Strings.Ascii Numbers.DecimalString.
From Stdlib Require Import List ZArith NArith Bool Lia Arith.
From Stdlib Require Import Sorting.Permutation Sorting.Sorted.
Import ListNotations.


(* ================================================================= *)
(** ** JavaScript strings *)

Module Js.

Definition jsstring := list N.

(** An ASCII literal of the source. *)
Definition lit (s : string) : jsstring :=
  map N_of_ascii (list_ascii_of_string s).

Definition quote : jsstring := [34%N].      (* the double quote *)
Definition apostrophe : N := 39%N.
Definition newline : N := 10%N.
Definition dollar : N := 36%N.
Definition ampersand : N := 38%N.
Definition backtick : N := 96%N.
Definition arrow : N := 8594%N.             (* U+2192 *)

Fixpoint str_eqb (a b : jsstring) : bool :=
  match a, b with
  | [], [] => true
  | x :: a', y :: b' => N.eqb x y && str_eqb a' b'
  | _, _ => false
  end.

(** Truthiness of a string: non-empty. *)
Definition truthy (s : jsstring) : bool :=
  match s with [] => false | _ :: _ => true end.

(** [a || b] on strings. *)
Definition or_else (a : option jsstring) (b : jsstring) : jsstring :=
  match a with
  | Some s => if truthy s then s else b
  | None => b
  end.

(** [`${n}`] for an integer. *)
Definition of_Z (z : Z) : jsstring := lit (NilZero.string_of_int (Z.to_int z)).
Definition of_nat (n : nat) : jsstring := of_Z (Z.of_nat n).

(** [parts.join(sep)]. *)
Fixpoint join (sep : jsstring) (parts : list jsstring) : jsstring :=
  match parts with
  | [] => []
  | [p] => p
  | p :: rest => p ++ sep ++ join sep rest
  end.

(** [text.split(sep)] for a separator of one code unit. *)
Fixpoint split (sep : N) (text : jsstring) : list jsstring :=
  match text with
  | [] => [[]]
  | c :: rest =>
      if N.eqb c sep then [] :: split sep rest
      else match split sep rest with
           | line :: lines => (c :: line) :: lines
           | [] => [[c]]
           end
  end.

(** [s.startsWith(p)]. *)
Fixpoint starts_with (p s : jsstring) : bool :=
  match p, s with
  | [], _ => true
  | x :: p', y :: s' => N.eqb x y && starts_with p' s'
  | _ :: _, [] => false
  end.

(** [s.indexOf(p)]: the least position where [p] occurs, if any. *)
Fixpoint indexOf (s p : jsstring) : option nat :=
  if starts_with p s then Some 0
  else match s with
       | [] => None
       | _ :: s' => option_map S (indexOf s' p)
       end.

(** [s.includes(p)]. *)
Definition includes (s p : jsstring) : bool :=
  match indexOf s p with Some _ => true | None => false end.

(** GetSubstitution of ECMA-262 for a string pattern: there are no captures,
    so only [$$], [$&], [$`] and [$'] are replacement patterns; every other
    text, [$1] and [$<] included, stands for itself. *)
Fixpoint GetSubstitution (matched before after template : jsstring) : jsstring :=
  match template with
  | [] => []
  | c :: rest =>
      if N.eqb c dollar then
        match rest with
        | d :: rest' =>
            if N.eqb d dollar then dollar :: GetSubstitution matched before after rest'
            else if N.eqb d backtick then before ++ GetSubstitution matched before after rest'
            else if N.eqb d ampersand then matched ++ GetSubstitution matched before after rest'
            else if N.eqb d apostrophe then after ++ GetSubstitution matched before after rest'
            else c :: GetSubstitution matched before after rest
        | [] => [c]
        end
      else c :: GetSubstitution matched before after rest
  end.

(** [s.replace(searchValue, replaceValue)] with two strings: the first
    occurrence only, and [replaceValue] read as a replacement template. *)
Definition replace (s searchValue replaceValue : jsstring) : jsstring :=
  match indexOf s searchValue with
  | None => s
  | Some pos =>
      let before := firstn pos s in
      let after := skipn (pos + length searchValue) s in
      before ++ GetSubstitution searchValue before after replaceValue ++ after
  end.

(** [a < b] on strings: by code units, a proper prefix first. *)
Fixpoint str_ltb (a b : jsstring) : bool :=
  match a, b with
  | _, [] => false
  | [], _ :: _ => true
  | x :: a', y :: b' =>
      if N.ltb x y then true
      else if N.eqb x y then str_ltb a' b' else false
  end.

(** [s.isWellFormed()]: no surrogate code unit without its partner. *)
Definition isHighSurrogate (c : N) : bool := (55296 <=? c)%N && (c <=? 56319)%N.
Definition isLowSurrogate (c : N) : bool := (56320 <=? c)%N && (c <=? 57343)%N.

Fixpoint isWellFormed (s : jsstring) : bool :=
  match s with
  | [] => true
  | c :: rest =>
      if isHighSurrogate c then
        match rest with
        | d :: rest' => isLowSurrogate d && isWellFormed rest'
        | [] => false
        end
      else negb (isLowSurrogate c) && isWellFormed rest
  end.

(** [Number.isSafeInteger(n)]: the integers that a number holds exactly and
    that a template literal prints digit for digit. *)
Definition isSafeInteger (n : Z) : bool := (Z.abs n <=? 9007199254740991)%Z.

End Js.

Import Js.

(* ================================================================= *)
(** ** schema.ts *)

Definition uuid := N.
Definition Timestamp := jsstring.

(** [Record<string, unknown>]: keys with their values as JSON text.  The
    subsystem never looks inside. *)
Definition Metadata := list (jsstring * jsstring).

Record MemoryBlock := {
  id : uuid;
  label : jsstring;
  value : jsstring;
  description : option jsstring;
  charLimit : Z;
  readOnly : bool;
  hidden : option bool;
  createdAt : Timestamp;
  updatedAt : Timestamp;
  version : Z;
  metadata : option Metadata
}.

Record CreateMemoryBlock := {
  c_label : jsstring;
  c_value : option jsstring;
  c_description : option jsstring;
  c_charLimit : option Z;
  c_readOnly : option bool;
  c_hidden : option bool;
  c_metadata : option Metadata
}.

(** [Partial<UpdateMemoryBlock>]: an absent field is [None]. *)
Record UpdateMemoryBlock := {
  u_value : option jsstring;
  u_description : option jsstring;
  u_charLimit : option Z;
  u_readOnly : option bool;
  u_hidden : option bool;
  u_metadata : option Metadata
}.

Record MemoryBlockHistory := {
  h_id : uuid;
  h_blockId : uuid;
  h_label : jsstring;
  h_value : jsstring;
  h_version : Z;
  h_createdAt : Timestamp;
  h_createdBy : jsstring
}.

Record SessionMemory := {
  sm_blocks : list MemoryBlock;
  sm_createdAt : Timestamp;
  sm_updatedAt : Timestamp
}.

Record LlmConfig := { modelEndpointType : option jsstring }.

(** Of [MemoryCompileOptions] the compiler reads [llmConfig] only. *)
Record MemoryCompileOptions := { llmConfig : option LlmConfig }.

Record MemoryBlockMetadata := {
  charsCurrent : Z;
  charsLimit : Z;
  m_readOnly : bool
}.

Record CompiledMemoryBlock := {
  cb_label : jsstring;
  cb_description : jsstring;
  cb_metadata : MemoryBlockMetadata;
  cb_value : jsstring
}.

(** Truthiness of an optional boolean field. *)
Definition flag (b : option bool) : bool :=
  match b with Some true => true | _ => false end.

Definition update_value (v : jsstring) : UpdateMemoryBlock :=
  {| u_value := Some v; u_description := None; u_charLimit := None;
     u_readOnly := None; u_hidden := None; u_metadata := None |}.

Definition update_description (text : jsstring) : UpdateMemoryBlock :=
  {| u_value := None; u_description := Some text; u_charLimit := None;
     u_readOnly := None; u_hidden := None; u_metadata := None |}.


(* ================================================================= *)
(** ** compiler.ts *)

Module Compiler.

Definition CORE_MEMORY_LINE_NUMBER_WARNING : jsstring :=
  lit "IMPORTANT: The <value> field below contains a line-numbered memory block. When editing this block, you must preserve all line numbers exactly as they appear. Do not remove, renumber, or modify the line number prefixes (e.g., '1"
  ++ [arrow] ++ lit " ', '2" ++ [arrow] ++ lit " ', '3" ++ [arrow]
  ++ lit " '). Only modify the content after the arrow and space.".

Definition shouldUseLineNumbers (options : option MemoryCompileOptions) : bool :=
  match options with
  | None => false
  | Some o =>
      match llmConfig o with
      | None => false
      | Some cfg =>
          match modelEndpointType cfg with
          | Some t => str_eqb t (lit "anthropic")
          | None => false
          end
      end
  end.

(** The [for] loop of [renderWithLineNumbers]: [i] is the index of the head
    of [lines], [result] the array built so far. *)
Fixpoint number_lines (i : nat) (lines : list jsstring) (result : list jsstring)
  : list jsstring :=
  match lines with
  | [] => result
  | line :: rest =>
      number_lines (S i) rest
        (result ++ [of_nat (i + 1) ++ [arrow; 32%N] ++ line])
  end.

Definition renderWithLineNumbers (text : jsstring) : list jsstring :=
  if truthy text then number_lines 0 (split newline text) []
  else [].

(** What one iteration of the loop of [compileMemory] pushes for a block
    that is not hidden, in three parts: up to the value, the value, and the
    rest; [last] is [idx < blocks.length - 1] negated. *)
Definition head_pieces (useLineNumbers : bool) (block : MemoryBlock)
  : list jsstring :=
  [lit "<" ++ label block ++ lit ">";
   lit "<description>";
   or_else (description block) [];
   lit "</description>";
   lit "<metadata>"]
  ++ (if readOnly block then [lit "- read_only=true"] else [])
  ++ [lit "- chars_current=" ++ of_nat (length (value block));
      lit "- chars_limit=" ++ of_Z (charLimit block);
      lit "</metadata>"]
  ++ (if useLineNumbers
      then [lit "<warning>" ++ [newline] ++ CORE_MEMORY_LINE_NUMBER_WARNING
              ++ [newline] ++ lit "</warning>"]
      else []).

Definition value_pieces (useLineNumbers : bool) (block : MemoryBlock)
  : list jsstring :=
  if useLineNumbers then renderWithLineNumbers (value block)
  else [value block].

Definition push_block (useLineNumbers : bool) (block : MemoryBlock) (last : bool)
  : list jsstring :=
  head_pieces useLineNumbers block
  ++ [lit "<value>"]
  ++ value_pieces useLineNumbers block
  ++ [lit "</value>";
      lit "</" ++ label block ++ lit ">"]
  ++ (if last then [] else [[]]).

(** The loop of [compileMemory] from index [idx] on, over the blocks not yet
    visited; [len] is [blocks.length] and [s] the array of pushed pieces. *)
Fixpoint compile_loop (useLineNumbers : bool) (len idx : nat)
    (blocks : list MemoryBlock) (s : list jsstring) : list jsstring :=
  match blocks with
  | [] => s
  | block :: rest =>
      if flag (hidden block) then compile_loop useLineNumbers len (S idx) rest s
      else compile_loop useLineNumbers len (S idx) rest
             (s ++ push_block useLineNumbers block (negb (idx <? len - 1)))
  end.

(** The array [s] just before [s.join]. *)
Definition opening : list jsstring :=
  [lit "<memory_blocks>";
   lit "The following memory blocks are currently engaged in your core memory unit:"
     ++ [newline]].

Definition compiled_pieces (blocks : list MemoryBlock)
    (options : option MemoryCompileOptions) : list jsstring :=
  let useLineNumbers := shouldUseLineNumbers options in
  compile_loop useLineNumbers (length blocks) 0 blocks opening
    ++ [lit "</memory_blocks>"].

Definition compileMemory (blocks : list MemoryBlock)
    (options : option MemoryCompileOptions) : jsstring :=
  match blocks with
  | [] => []
  | _ :: _ => join [newline] (compiled_pieces blocks options)
  end.

Definition getCompiledMemoryBlocks (blocks : list MemoryBlock)
  : list CompiledMemoryBlock :=
  map (fun block =>
         {| cb_label := label block;
            cb_description := or_else (description block) [];
            cb_metadata := {| charsCurrent := Z.of_nat (length (value block));
                              charsLimit := charLimit block;
                              m_readOnly := readOnly block |};
            cb_value := value block |})
      (filter (fun b => negb (flag (hidden b))) blocks).

(** [Math.ceil(compiled.length / 4)] of the text compiled without
    options. *)
Definition estimateCompiledMemoryTokens (blocks : list MemoryBlock) : Z :=
  let compiled := compileMemory blocks None in
  ((Z.of_nat (length compiled) + 3) / 4)%Z.

End Compiler.

(* ================================================================= *)
(** ** Exceptions and the state-and-exception monad *)

Inductive Exn :=
| Error (message : jsstring)          (* [new Error(message)] *)
| SqliteError (message : jsstring).   (* a constraint failure of the engine *)

(** [error.message]; both kinds are instances of [Error]. *)
Definition message_of (e : Exn) : jsstring :=
  match e with Error m => m | SqliteError m => m end.

Inductive Result (A : Type) :=
| Ok (a : A)
| Throw (e : Exn).
Arguments Ok {A} a.
Arguments Throw {A} e.

Definition M (S A : Type) := S -> Result A * S.

Definition ret {S A} (a : A) : M S A := fun s => (Ok a, s).

Definition bind {S A B} (m : M S A) (k : A -> M S B) : M S B :=
  fun s => match m s with
           | (Ok a, s') => k a s'
           | (Throw e, s') => (Throw e, s')
           end.

Definition throw {S A} (e : Exn) : M S A := fun s => (Throw e, s).

(** [try { body } catch (error) { handler }]. *)
Definition try_catch {S A} (body : M S A) (handler : Exn -> M S A) : M S A :=
  fun s => match body s with
           | (Ok a, s') => (Ok a, s')
           | (Throw e, s') => handler e s'
           end.

Notation "x <- c1 ;; c2" := (bind c1 (fun x => c2))
  (at level 61, c1 at next level, right associativity).

(* ================================================================= *)
(** ** database.ts *)

Module MemoryDatabase.

(** A row of [memory_blocks]. *)
Record BlockRow := {
  r_id : uuid;
  session_id : jsstring;
  r_label : jsstring;
  r_value : jsstring;
  r_description : option jsstring;
  char_limit : Z;
  read_only : Z;
  r_hidden : Z;
  r_metadata : option Metadata;     (* the serialized bag, or NULL *)
  created_at : Timestamp;
  updated_at : Timestamp;
  r_version : Z
}.

(** The two tables; a row of [memory_block_history] has the columns of
    [MemoryBlockHistory].  [next_uuid] is the source of [randomUUID]. *)
Record Database := {
  memory_blocks : list BlockRow;
  memory_block_history : list MemoryBlockHistory;
  next_uuid : N
}.

Definition empty : Database :=
  {| memory_blocks := []; memory_block_history := []; next_uuid := 0%N |}.

Definition randomUUID : M Database uuid :=
  fun d => (Ok (next_uuid d),
            {| memory_blocks := memory_blocks d;
               memory_block_history := memory_block_history d;
               next_uuid := N.succ (next_uuid d) |}).

(** The conversion every [SELECT] of the source applies to a row.  The
    text columns hold the code units of the string that was bound: the
    engine keeps text as UTF-8, and a string is read back code unit for
    code unit when it is well formed ([isWellFormed]); the properties of
    strings that go through the store are stated for such strings. *)
Definition row_to_block (row : BlockRow) : MemoryBlock :=
  {| id := r_id row;
     label := r_label row;
     value := r_value row;
     description := r_description row;
     charLimit := char_limit row;
     readOnly := Z.eqb (read_only row) 1;
     hidden := Some (Z.eqb (r_hidden row) 1);
     createdAt := created_at row;
     updatedAt := updated_at row;
     version := r_version row;
     metadata := r_metadata row |}.

(** [ORDER BY label]: binary collation, by insertion. *)
Fixpoint str_leb (a b : jsstring) : bool :=
  match a, b with
  | [], _ => true
  | _ :: _, [] => false
  | x :: a', y :: b' =>
      if N.ltb x y then true
      else if N.eqb x y then str_leb a' b' else false
  end.

Fixpoint insert_by_label (r : BlockRow) (rows : list BlockRow) : list BlockRow :=
  match rows with
  | [] => [r]
  | x :: rest =>
      if str_leb (r_label r) (r_label x) then r :: rows
      else x :: insert_by_label r rest
  end.

Definition order_by_label (rows : list BlockRow) : list BlockRow :=
  fold_right insert_by_label [] rows.

(** [WHERE session_id = ? AND label = ?]. *)
Definition where_label (sessionId lbl : jsstring) (row : BlockRow) : bool :=
  str_eqb (session_id row) sessionId && str_eqb (r_label row) lbl.

Definition where_session (sessionId : jsstring) (row : BlockRow) : bool :=
  str_eqb (session_id row) sessionId.

Definition getBlocksForSession (sessionId : jsstring) (d : Database)
  : list MemoryBlock :=
  map row_to_block
      (order_by_label (filter (where_session sessionId) (memory_blocks d))).

Definition getBlockByLabel (sessionId lbl : jsstring) (d : Database)
  : option MemoryBlock :=
  option_map row_to_block (find (where_label sessionId lbl) (memory_blocks d)).

Definition getBlock (i : uuid) (d : Database) : option MemoryBlock :=
  option_map row_to_block (find (fun r => N.eqb (r_id r) i) (memory_blocks d)).

(** [INSERT INTO memory_block_history]: primary key [id], foreign key
    [block_id]. *)
Definition insert_history (h : MemoryBlockHistory) : M Database unit :=
  fun d =>
    if existsb (fun x => N.eqb (h_id x) (h_id h)) (memory_block_history d) then
      (Throw (SqliteError (lit "UNIQUE constraint failed: memory_block_history.id")), d)
    else if negb (existsb (fun r => N.eqb (r_id r) (h_blockId h)) (memory_blocks d)) then
      (Throw (SqliteError (lit "FOREIGN KEY constraint failed")), d)
    else
      (Ok tt, {| memory_blocks := memory_blocks d;
                 memory_block_history := memory_block_history d ++ [h];
                 next_uuid := next_uuid d |}).

Definition createHistoryEntry (blockId : uuid) (lbl val : jsstring) (ver : Z)
    (at_ : Timestamp) (createdBy : jsstring) : M Database unit :=
  i <- randomUUID ;;
  insert_history {| h_id := i; h_blockId := blockId; h_label := lbl;
                    h_value := val; h_version := ver; h_createdAt := at_;
                    h_createdBy := createdBy |}.

(** [INSERT INTO memory_blocks]: primary key [id], [UNIQUE(session_id, label)]. *)
Definition insert_block (row : BlockRow) : M Database unit :=
  fun d =>
    if existsb (fun r => N.eqb (r_id r) (r_id row)) (memory_blocks d) then
      (Throw (SqliteError (lit "UNIQUE constraint failed: memory_blocks.id")), d)
    else if existsb (where_label (session_id row) (r_label row)) (memory_blocks d) then
      (Throw (SqliteError
         (lit "UNIQUE constraint failed: memory_blocks.session_id, memory_blocks.label")), d)
    else
      (Ok tt, {| memory_blocks := memory_blocks d ++ [row];
                 memory_block_history := memory_block_history d;
                 next_uuid := next_uuid d |}).

(** [x || 4000] on an optional number. *)
Definition limit_or_default (l : option Z) : Z :=
  match l with
  | Some z => if Z.eqb z 0 then 4000%Z else z
  | None => 4000%Z
  end.

Definition bit (b : bool) : Z := if b then 1%Z else 0%Z.

(** The row that [createBlock] inserts. *)
Definition new_row (i : uuid) (sessionId : jsstring) (block : CreateMemoryBlock)
    (now : Timestamp) (ver : Z) : BlockRow :=
  {| r_id := i;
     session_id := sessionId;
     r_label := c_label block;
     r_value := or_else (c_value block) [];
     r_description := Some (or_else (c_description block) []);
     char_limit := limit_or_default (c_charLimit block);
     read_only := bit (flag (c_readOnly block));
     r_hidden := bit (flag (c_hidden block));
     r_metadata := c_metadata block;
     created_at := now;
     updated_at := now;
     r_version := ver |}.

(** The value of [getBlock(id)!] may be absent only if the row just inserted
    were missing, hence the option. *)
Definition createBlock (sessionId : jsstring) (block : CreateMemoryBlock)
    (now : Timestamp) : M Database (option MemoryBlock) :=
  i <- randomUUID ;;
  let ver := 1%Z in
  _ <- insert_block (new_row i sessionId block now ver) ;;
  _ <- createHistoryEntry i (c_label block) (or_else (c_value block) []) ver now
         (lit "agent") ;;
  fun d => (Ok (getBlock i d), d).

(** [COALESCE(?, column)]. *)
Definition coalesce {A} (x : option A) (column : A) : A :=
  match x with Some v => v | None => column end.

Definition coalesce_null {A} (x : option A) (column : option A) : option A :=
  match x with Some v => Some v | None => column end.

(** The [SET] clause of the [UPDATE] of [updateBlock], on one row. *)
Definition set_columns (updates : UpdateMemoryBlock) (now : Timestamp)
    (newVersion : Z) (row : BlockRow) : BlockRow :=
  {| r_id := r_id row;
     session_id := session_id row;
     r_label := r_label row;
     r_value := coalesce (u_value updates) (r_value row);
     r_description := coalesce_null (u_description updates) (r_description row);
     char_limit := coalesce (u_charLimit updates) (char_limit row);
     read_only := coalesce (option_map bit (u_readOnly updates)) (read_only row);
     r_hidden := coalesce (option_map bit (u_hidden updates)) (r_hidden row);
     r_metadata := coalesce_null (u_metadata updates) (r_metadata row);
     created_at := created_at row;
     updated_at := now;
     r_version := newVersion |}.

Definition update_rows (sessionId lbl : jsstring) (updates : UpdateMemoryBlock)
    (now : Timestamp) (newVersion : Z) : M Database unit :=
  fun d =>
    (Ok tt,
     {| memory_blocks :=
          map (fun row => if where_label sessionId lbl row
                          then set_columns updates now newVersion row
                          else row)
              (memory_blocks d);
        memory_block_history := memory_block_history d;
        next_uuid := next_uuid d |}).

Definition updateBlock (sessionId lbl : jsstring) (updates : UpdateMemoryBlock)
    (now : Timestamp) : M Database (option MemoryBlock) :=
  fun d =>
    match getBlockByLabel sessionId lbl d with
    | None => (Ok None, d)
    | Some existing =>
        let newVersion := (version existing + 1)%Z in
        (_ <- update_rows sessionId lbl updates now newVersion ;;
         _ <- match u_value updates with
              | Some v => createHistoryEntry (id existing) lbl v newVersion now
                            (lit "agent")
              | None => ret tt
              end ;;
         fun d' => (Ok (getBlockByLabel sessionId lbl d'), d')) d
    end.

(** [DELETE FROM memory_blocks WHERE ...], with the cascade of the foreign
    key on the history rows (the driver enforces foreign keys by default). *)
Definition delete_where (p : BlockRow -> bool) (d : Database) : Database :=
  let deleted := filter p (memory_blocks d) in
  {| memory_blocks := filter (fun r => negb (p r)) (memory_blocks d);
     memory_block_history :=
       filter (fun h => negb (existsb (fun r => N.eqb (r_id r) (h_blockId h)) deleted))
              (memory_block_history d);
     next_uuid := next_uuid d |}.

Definition deleteBlock (sessionId lbl : jsstring) : M Database bool :=
  fun d =>
    (Ok (0 <? length (filter (where_label sessionId lbl) (memory_blocks d))),
     delete_where (where_label sessionId lbl) d).

Definition deleteSessionMemory (sessionId : jsstring) : M Database unit :=
  fun d => (Ok tt, delete_where (where_session sessionId) d).

(** [ORDER BY version DESC], by insertion. *)
Fixpoint insert_by_version (h : MemoryBlockHistory)
    (rows : list MemoryBlockHistory) : list MemoryBlockHistory :=
  match rows with
  | [] => [h]
  | x :: rest =>
      if (h_version x <? h_version h)%Z then h :: rows
      else x :: insert_by_version h rest
  end.

Definition order_by_version_desc (rows : list MemoryBlockHistory)
  : list MemoryBlockHistory :=
  fold_right insert_by_version [] rows.

Definition getBlockHistory (sessionId lbl : jsstring) (d : Database)
  : list MemoryBlockHistory :=
  match getBlockByLabel sessionId lbl d with
  | None => []
  | Some block =>
      order_by_version_desc
        (filter (fun h => N.eqb (h_blockId h) (id block)) (memory_block_history d))
  end.

(** The two [reduce] calls of [getSessionMemory]: the least [createdAt] and
    the greatest [updatedAt]. *)
Definition getSessionMemory (sessionId : jsstring) (now : Timestamp)
    (d : Database) : SessionMemory :=
  let blocks := getBlocksForSession sessionId d in
  match blocks with
  | [] => {| sm_blocks := []; sm_createdAt := now; sm_updatedAt := now |}
  | first :: _ =>
      {| sm_blocks := blocks;
         sm_createdAt :=
           fold_left (fun min b => if str_ltb (createdAt b) min
                                   then createdAt b else min)
                     blocks (createdAt first);
         sm_updatedAt :=
           fold_left (fun max b => if str_ltb max (updatedAt b)
                                   then updatedAt b else max)
                     blocks (updatedAt first) |}
  end.

End MemoryDatabase.

(* ================================================================= *)
(** ** manager.ts *)

Module MemoryManager.

Import MemoryDatabase.

Record State := {
  db : Database;
  memoryCache : option (list MemoryBlock)
}.

(** The constructor ignores its [sessionId] argument. *)
Definition sessionId : jsstring := lit "global".

(** A fresh manager on a database. *)
Definition open (d : Database) : State := {| db := d; memoryCache := None |}.

Definition liftDb {A} (m : M Database A) : M State A :=
  fun st => let (r, d) := m (db st) in
            (r, {| db := d; memoryCache := memoryCache st |}).

(** [load] returns the session memory, of which callers use the blocks. *)
Definition load : M State (list MemoryBlock) :=
  fun st =>
    let blocks := getBlocksForSession sessionId (db st) in
    (Ok blocks, {| db := db st; memoryCache := Some blocks |}).

(** [if (!this.memoryCache) this.load()], then the cache. *)
Definition getBlocks : M State (list MemoryBlock) :=
  fun st => match memoryCache st with
            | Some c => (Ok c, st)
            | None => load st
            end.

Definition has_label (lbl : jsstring) (b : MemoryBlock) : bool :=
  str_eqb (label b) lbl.

Definition getBlock (lbl : jsstring) : M State (option MemoryBlock) :=
  c <- getBlocks ;; ret (find (has_label lbl) c).

Definition listBlockLabels : M State (list jsstring) :=
  c <- getBlocks ;; ret (map label c).

Fixpoint findIndex {A} (p : A -> bool) (l : list A) : option nat :=
  match l with
  | [] => None
  | x :: rest => if p x then Some 0 else option_map S (findIndex p rest)
  end.

(** [array[index] = x] for an index inside the array. *)
Fixpoint assign {A} (index : nat) (x : A) (l : list A) : list A :=
  match l, index with
  | [], _ => []
  | _ :: rest, 0 => x :: rest
  | y :: rest, S i => y :: assign i x rest
  end.

Definition cacheUpdate (block : MemoryBlock) : M State unit :=
  fun st =>
    match memoryCache st with
    | None => (Ok tt, st)
    | Some c =>
        let c' := match findIndex (fun b => N.eqb (id b) (id block)) c with
                  | Some index => assign index block c
                  | None => c ++ [block]
                  end in
        (Ok tt, {| db := db st; memoryCache := Some c' |})
    end.

Definition already_exists (lbl : jsstring) : jsstring :=
  lit "Block with label " ++ quote ++ lbl ++ quote ++ lit " already exists".

Definition exceeds_charLimit (len : nat) (limit : Z) (lbl : jsstring) : jsstring :=
  lit "Value length (" ++ of_nat len ++ lit ") exceeds charLimit ("
  ++ of_Z limit ++ lit ") for block " ++ quote ++ lbl ++ quote.

Definition read_only_modified (lbl : jsstring) : jsstring :=
  lit "Block " ++ quote ++ lbl ++ quote ++ lit " is read-only and cannot be modified".

Definition read_only_deleted (lbl : jsstring) : jsstring :=
  lit "Block " ++ quote ++ lbl ++ quote ++ lit " is read-only and cannot be deleted".

Definition old_content_not_found (lbl : jsstring) : jsstring :=
  lit "Old content not found in block " ++ quote ++ lbl ++ quote.

(** [value.length > limit]. *)
Definition longer_than (v : jsstring) (limit : Z) : bool :=
  (limit <? Z.of_nat (length v))%Z.

(** The store hands back the row it has just inserted; were it absent,
    [cacheUpdate] would read [id] of [undefined]. *)
Definition createBlock (block : CreateMemoryBlock) (now : Timestamp)
  : M State MemoryBlock :=
  existing <- getBlock (c_label block) ;;
  match existing with
  | Some _ => throw (Error (already_exists (c_label block)))
  | None =>
      let val := or_else (c_value block) [] in
      let limit := limit_or_default (c_charLimit block) in
      if longer_than val limit then
        throw (Error (exceeds_charLimit (length val) limit (c_label block)))
      else
        newBlock <- liftDb (MemoryDatabase.createBlock sessionId block now) ;;
        match newBlock with
        | Some b => _ <- cacheUpdate b ;; ret b
        | None =>
            throw (Error (lit "Cannot read properties of undefined (reading 'id')"))
        end
  end.

(** The two length tests of [updateBlock], in the order of the source: the
    message to throw, if any. *)
Definition check_length (existing : MemoryBlock) (lbl : jsstring)
    (updates : UpdateMemoryBlock) : option jsstring :=
  match u_value updates with
  | None => None
  | Some v =>
      match u_charLimit updates with
      | Some limit =>
          if longer_than v limit
          then Some (exceeds_charLimit (length v) limit lbl)
          else if longer_than v (charLimit existing)
          then Some (exceeds_charLimit (length v) (charLimit existing) lbl)
          else None
      | None =>
          if longer_than v (charLimit existing)
          then Some (exceeds_charLimit (length v) (charLimit existing) lbl)
          else None
      end
  end.

(** The tail of [updateBlock]: the store's update, then the cache. *)
Definition write_through (lbl : jsstring) (updates : UpdateMemoryBlock)
    (now : Timestamp) : M State (option MemoryBlock) :=
  updatedBlock <- liftDb (MemoryDatabase.updateBlock sessionId lbl updates now) ;;
  match updatedBlock with
  | Some b => _ <- cacheUpdate b ;; ret updatedBlock
  | None => ret updatedBlock
  end.

Definition updateBlock (lbl : jsstring) (updates : UpdateMemoryBlock)
    (now : Timestamp) : M State (option MemoryBlock) :=
  found <- getBlock lbl ;;
  match found with
  | None => ret None
  | Some existing =>
      if readOnly existing then throw (Error (read_only_modified lbl))
      else
        match check_length existing lbl updates with
        | Some msg => throw (Error msg)
        | None => write_through lbl updates now
        end
  end.

Definition deleteBlock (lbl : jsstring) : M State bool :=
  found <- getBlock lbl ;;
  match found with
  | None => ret false
  | Some block =>
      if readOnly block then throw (Error (read_only_deleted lbl))
      else
        success <- liftDb (MemoryDatabase.deleteBlock sessionId lbl) ;;
        fun st =>
          match success, memoryCache st with
          | true, Some c =>
              (Ok success,
               {| db := db st;
                  memoryCache := Some (filter (fun b => negb (has_label lbl b)) c) |})
          | _, _ => (Ok success, st)
          end
  end.

Definition appendBlock (lbl content : jsstring) (now : Timestamp)
  : M State (option MemoryBlock) :=
  found <- getBlock lbl ;;
  match found with
  | None => ret None
  | Some block =>
      if readOnly block then throw (Error (read_only_modified lbl))
      else
        let newValue :=
          value block ++ (if truthy (value block) then [newline] else []) ++ content in
        updateBlock lbl (update_value newValue) now
  end.

Definition replaceBlock (lbl oldContent newContent : jsstring) (now : Timestamp)
  : M State (option MemoryBlock) :=
  found <- getBlock lbl ;;
  match found with
  | None => ret None
  | Some block =>
      if readOnly block then throw (Error (read_only_modified lbl))
      else if truthy oldContent && negb (includes (value block) oldContent) then
        throw (Error (old_content_not_found lbl))
      else
        let newValue :=
          if truthy oldContent then replace (value block) oldContent newContent
          else newContent in
        updateBlock lbl (update_value newValue) now
  end.

Definition compile (options : option MemoryCompileOptions) : M State jsstring :=
  c <- getBlocks ;; ret (Compiler.compileMemory c options).

Definition clearCache : M State unit :=
  fun st => (Ok tt, {| db := db st; memoryCache := None |}).

Definition getBlockHistory (lbl : jsstring) : M State (list MemoryBlockHistory) :=
  fun st => (Ok (MemoryDatabase.getBlockHistory sessionId lbl (db st)), st).

End MemoryManager.

(* ================================================================= *)
(** ** tools.ts *)

Module Tools.

Import MemoryManager.

(** The [details] of a tool result. *)
Inductive Details :=
| Failure (error : jsstring)
| Written (lbl : jsstring) (newLength : Z) (limit : Z).

(** [content] is the array of the text items of the result. *)
Record ToolResult := {
  content : list jsstring;
  details : Details
}.

Definition not_found_text (lbl : jsstring) : jsstring :=
  lit "Error: Memory block '" ++ lbl
  ++ lit "' not found. Use memory_list to see available blocks.".

Definition written_text (verb lbl : jsstring) (b : MemoryBlock) : jsstring :=
  lit "Successfully " ++ verb ++ lit " '" ++ lbl ++ lit "'. Block now contains "
  ++ of_nat (length (value b)) ++ lit "/" ++ of_Z (charLimit b)
  ++ lit " characters.".

(** The answer shared by both executors once the manager has returned. *)
Definition answer (verb lbl : jsstring) (block : option MemoryBlock) : ToolResult :=
  match block with
  | None =>
      {| content := [not_found_text lbl];
         details := Failure (lit "Block not found") |}
  | Some b =>
      {| content := [written_text verb lbl b];
         details := Written lbl (Z.of_nat (length (value b))) (charLimit b) |}
  end.

Definition caught (prefix : jsstring) (error : Exn) : ToolResult :=
  {| content := [prefix ++ message_of error];
     details := Failure (message_of error) |}.

(** [execute] of [memory_append]. *)
Definition memory_append (lbl content_ : jsstring) (now : Timestamp)
  : M State ToolResult :=
  try_catch
    (block <- appendBlock lbl content_ now ;;
     ret (answer (lit "appended to") lbl block))
    (fun error => ret (caught (lit "Error appending to memory: ") error)).

(** [execute] of [memory_replace]; [old_content] may be omitted. *)
Definition memory_replace (lbl : jsstring) (old_content : option jsstring)
    (new_content : jsstring) (now : Timestamp) : M State ToolResult :=
  try_catch
    (block <- replaceBlock lbl (or_else old_content []) new_content now ;;
     ret (answer (lit "updated") lbl block))
    (fun error => ret (caught (lit "Error updating memory: ") error)).





End Tools.

(* ================================================================= *)
(** ** Calls, runs and invariants *)

(** A call of the store's interface. *)
Inductive StoreCall :=
| SCreate (sessionId : jsstring) (block : CreateMemoryBlock) (now : Timestamp)
| SUpdate (sessionId lbl : jsstring) (updates : UpdateMemoryBlock) (now : Timestamp)
| SDelete (sessionId lbl : jsstring)
| SDeleteSession (sessionId : jsstring).

Definition store_step (c : StoreCall) (d : MemoryDatabase.Database)
  : MemoryDatabase.Database :=
  match c with
  | SCreate s b now => snd (MemoryDatabase.createBlock s b now d)
  | SUpdate s l u now => snd (MemoryDatabase.updateBlock s l u now d)
  | SDelete s l => snd (MemoryDatabase.deleteBlock s l d)
  | SDeleteSession s => snd (MemoryDatabase.deleteSessionMemory s d)
  end.

(** The databases the store's interface can produce from the empty schema. *)
Inductive reachable : MemoryDatabase.Database -> Prop :=
| reach_empty : reachable MemoryDatabase.empty
| reach_step c d : reachable d -> reachable (store_step c d).

(** A call of the manager or of a tool. *)
Inductive Call :=
| Load
| GetBlock (lbl : jsstring)
| GetBlocks
| CreateBlock (block : CreateMemoryBlock) (now : Timestamp)
| UpdateBlock (lbl : jsstring) (updates : UpdateMemoryBlock) (now : Timestamp)
| DeleteBlock (lbl : jsstring)
| AppendBlock (lbl content : jsstring) (now : Timestamp)
| ReplaceBlock (lbl oldContent newContent : jsstring) (now : Timestamp)
| Compile (options : option MemoryCompileOptions)
| ClearCache
| MemoryAppend (lbl content : jsstring) (now : Timestamp)
| MemoryReplace (lbl : jsstring) (old_content : option jsstring)
    (new_content : jsstring) (now : Timestamp).

Definition step (c : Call) (st : MemoryManager.State) : MemoryManager.State :=
  match c with
  | Load => snd (MemoryManager.load st)
  | GetBlock l => snd (MemoryManager.getBlock l st)
  | GetBlocks => snd (MemoryManager.getBlocks st)
  | CreateBlock b now => snd (MemoryManager.createBlock b now st)
  | UpdateBlock l u now => snd (MemoryManager.updateBlock l u now st)
  | DeleteBlock l => snd (MemoryManager.deleteBlock l st)
  | AppendBlock l c now => snd (MemoryManager.appendBlock l c now st)
  | ReplaceBlock l o n now => snd (MemoryManager.replaceBlock l o n now st)
  | Compile o => snd (MemoryManager.compile o st)
  | ClearCache => snd (MemoryManager.clearCache st)
  | MemoryAppend l c now => snd (Tools.memory_append l c now st)
  | MemoryReplace l o n now => snd (Tools.memory_replace l o n now st)
  end.


(** The block the store holds under a label of the manager's scope. *)
Definition stored (lbl : jsstring) (st : MemoryManager.State) : option MemoryBlock :=
  MemoryDatabase.getBlockByLabel MemoryManager.sessionId lbl (MemoryManager.db st).

(** What the schema and the identifier source guarantee of a database:
    the primary key of [memory_blocks], its [UNIQUE(session_id, label)], and
    identifiers in use below the next one drawn. *)
Definition wf_db (d : MemoryDatabase.Database) : Prop :=
  NoDup (map MemoryDatabase.r_id (MemoryDatabase.memory_blocks d))
  /\ (forall s, NoDup (map MemoryDatabase.r_label
                        (filter (MemoryDatabase.where_session s)
                                (MemoryDatabase.memory_blocks d))))
  /\ (forall r, In r (MemoryDatabase.memory_blocks d) ->
                (MemoryDatabase.r_id r < MemoryDatabase.next_uuid d)%N)
  /\ (forall h, In h (MemoryDatabase.memory_block_history d) ->
                (h_id h < MemoryDatabase.next_uuid d)%N
                /\ (h_blockId h < MemoryDatabase.next_uuid d)%N).

(** The cache, once loaded, mirrors the store: no label twice, and a block
    is cached exactly when the store holds it under its label. *)
Definition mirrors (c : list MemoryBlock) (d : MemoryDatabase.Database) : Prop :=
  NoDup (map label c)
  /\ forall b, In b c <->
       MemoryDatabase.getBlockByLabel MemoryManager.sessionId (label b) d = Some b.

Definition coherent (st : MemoryManager.State) : Prop :=
  wf_db (MemoryManager.db st)
  /\ match MemoryManager.memoryCache st with
     | None => True
     | Some c => mirrors c (MemoryManager.db st)
     end.

(** The state of a manager once its cache is loaded. *)
Definition loaded (st : MemoryManager.State) : MemoryManager.State :=
  snd (MemoryManager.getBlocks st).

(** A block with the provided fields of an update merged in, stamped
    [now], one version later. *)
Definition merged (b : MemoryBlock) (u : UpdateMemoryBlock) (now : Timestamp)
  : MemoryBlock :=
  {| id := id b;
     label := label b;
     value := MemoryDatabase.coalesce (u_value u) (value b);
     description := MemoryDatabase.coalesce_null (u_description u) (description b);
     charLimit := MemoryDatabase.coalesce (u_charLimit u) (charLimit b);
     readOnly := MemoryDatabase.coalesce (u_readOnly u) (readOnly b);
     hidden := MemoryDatabase.coalesce_null (u_hidden u) (hidden b);
     createdAt := createdAt b;
     updatedAt := now;
     version := (version b + 1)%Z;
     metadata := MemoryDatabase.coalesce_null (u_metadata u) (metadata b) |}.


(** The history rows of a block. *)
Definition history_of (i : uuid) (d : MemoryDatabase.Database)
  : list MemoryBlockHistory :=
  filter (fun h => N.eqb (h_blockId h) i) (MemoryDatabase.memory_block_history d).

Definition has_version (v : Z) (hs : list MemoryBlockHistory) : bool :=
  existsb (fun h => Z.eqb (h_version h) v) hs.

(* ================================================================= *)
(** ** Vocabulary of the specification *)

(** The elements of a list with their positions, from [start]. *)
Definition positions_from {A} (start : nat) (l : list A) : list (nat * A) :=
  combine (seq start (length l)) l.

Definition visible (b : MemoryBlock) : bool := negb (flag (hidden b)).

(** The blocks that are rendered, each with its index in the input. *)
Definition rendered (blocks : list MemoryBlock) : list (nat * MemoryBlock) :=
  filter (fun p => visible (snd p)) (positions_from 0 blocks).


(** Lines prefixed with their 1-based number, the arrow and one space. *)
Definition numbered (lines : list jsstring) : list jsstring :=
  map (fun p => of_nat (fst p + 1) ++ [arrow; 32%N] ++ snd p)
      (positions_from 0 lines).

(** [pre ++ p ++ post] splits [s] at the first occurrence of [p]. *)
Definition first_occurrence (p s pre post : jsstring) : Prop :=
  s = pre ++ p ++ post
  /\ forall pre' post', s = pre' ++ p ++ post' -> length pre <= length pre'.

(** [p] occurs in [s]. *)
Definition substring (p s : jsstring) : Prop :=
  exists pre post, s = pre ++ p ++ post.

(** The text of a block that is compiled without line numbers: its tags,
    its description, its metadata lines and its value. *)
Definition block_text (b : MemoryBlock) : jsstring :=
  lit "<" ++ label b ++ lit ">" ++ [newline]
  ++ lit "<description>" ++ [newline]
  ++ or_else (description b) [] ++ [newline]
  ++ lit "</description>" ++ [newline]
  ++ lit "<metadata>" ++ [newline]
  ++ (if readOnly b then lit "- read_only=true" ++ [newline] else [])
  ++ lit "- chars_current=" ++ of_nat (length (value b)) ++ [newline]
  ++ lit "- chars_limit=" ++ of_Z (charLimit b) ++ [newline]
  ++ lit "</metadata>" ++ [newline]
  ++ lit "<value>" ++ [newline]
  ++ value b ++ [newline]
  ++ lit "</value>" ++ [newline]
  ++ lit "</" ++ label b ++ lit ">".

(** The line below the opening marker, with the newline it ends in. *)
Definition introduction : jsstring :=
  lit "The following memory blocks are currently engaged in your core memory unit:"
  ++ [newline].

(** The value section of a block and the closing tag of the block: the raw
    value, or its numbered lines, or no line at all for the empty value
    when lines are numbered. *)
Definition value_text (useLineNumbers : bool) (b : MemoryBlock) : jsstring :=
  lit "<value>" ++ [newline]
  ++ (if useLineNumbers
      then if truthy (value b)
           then join [newline] (numbered (split newline (value b))) ++ [newline]
           else []
      else value b ++ [newline])
  ++ lit "</value>" ++ [newline]
  ++ lit "</" ++ label b ++ lit ">".

(** The whole section of a block in the compiled text. *)
Definition section_text (useLineNumbers : bool) (b : MemoryBlock) : jsstring :=
  lit "<" ++ label b ++ lit ">" ++ [newline]
  ++ lit "<description>" ++ [newline]
  ++ or_else (description b) [] ++ [newline]
  ++ lit "</description>" ++ [newline]
  ++ lit "<metadata>" ++ [newline]
  ++ (if readOnly b then lit "- read_only=true" ++ [newline] else [])
  ++ lit "- chars_current=" ++ of_nat (length (value b)) ++ [newline]
  ++ lit "- chars_limit=" ++ of_Z (charLimit b) ++ [newline]
  ++ lit "</metadata>" ++ [newline]
  ++ (if useLineNumbers
      then lit "<warning>" ++ [newline]
           ++ Compiler.CORE_MEMORY_LINE_NUMBER_WARNING ++ [newline]
           ++ lit "</warning>" ++ [newline]
      else [])
  ++ value_text useLineNumbers b.

(** An optional string that, if given, is well formed. *)
Definition well_formed_if_given (o : option jsstring) : bool :=
  match o with
  | Some s => isWellFormed s
  | None => true
  end.



(** Every block of the store has a history row of version 1, and the
    versions of its history rows lie between 1 and its own. *)
Definition history_within (d : MemoryDatabase.Database) : Prop :=
  forall r, In r (MemoryDatabase.memory_blocks d) ->
    has_version 1 (history_of (MemoryDatabase.r_id r) d) = true
    /\ forall h, In h (history_of (MemoryDatabase.r_id r) d) ->
         (1 <= h_version h <= MemoryDatabase.r_version r)%Z.




(** A run of calls of the store. *)
Definition store_run (calls : list StoreCall) (d : MemoryDatabase.Database)
  : MemoryDatabase.Database :=
  fold_left (fun s c => store_step c s) calls d.


(** Labels whose code units lie below the surrogates: on these the order
    of the code units is the order of the binary collation. *)
Definition plain (l : jsstring) : Prop := Forall (fun c => (c < 55296)%N) l.

(* ================================================================= *)
(** ** Sample data *)

Module Sample.

Definition anthropic : option MemoryCompileOptions :=
  Some {| llmConfig := Some {| modelEndpointType := Some (lit "anthropic") |} |}.

Definition block (lbl val : jsstring) (limit : Z) (ro hid : bool) : MemoryBlock :=
  {| id := 0%N; label := lbl; value := val; description := Some [];
     charLimit := limit; readOnly := ro; hidden := Some hid;
     createdAt := lit "2025-01-01T00:00:00.000Z";
     updatedAt := lit "2025-01-01T00:00:00.000Z";
     version := 1%Z; metadata := None |}.

(** The three lines [alpha], the empty line and [gamma]. *)
Definition three_lines : MemoryBlock :=
  block (lit "notes") (lit "alpha" ++ [newline; newline] ++ lit "gamma") 4000 false false.

Definition spec (lbl val : jsstring) (limit : Z) (ro : bool) : CreateMemoryBlock :=
  {| c_label := lbl; c_value := Some val; c_description := None;
     c_charLimit := Some limit; c_readOnly := Some ro; c_hidden := None;
     c_metadata := None |}.

Definition t0 : Timestamp := lit "2025-01-01T00:00:00.000Z".
Definition t1 : Timestamp := lit "2025-01-02T00:00:00.000Z".
Definition t2 : Timestamp := lit "2025-01-03T00:00:00.000Z".

(** A store with one block [tasks], empty, limit 4000. *)
Definition tasks_db : MemoryDatabase.Database :=
  store_step (SCreate MemoryManager.sessionId (spec (lit "tasks") [] 4000 false) t0)
             MemoryDatabase.empty.

(** A store with one block [project] holding [hello world], limit 20. *)
Definition project_db : MemoryDatabase.Database :=
  store_step (SCreate MemoryManager.sessionId
                (spec (lit "project") (lit "hello world") 20 false) t0)
             MemoryDatabase.empty.

(** A store with one read-only block [persona]. *)
Definition persona_db : MemoryDatabase.Database :=
  store_step (SCreate MemoryManager.sessionId
                (spec (lit "persona") (lit "You are an assistant.") 2000 true) t0)
             MemoryDatabase.empty.

(** [tasks_db] after an update of the description alone. *)
Definition described_db : MemoryDatabase.Database :=
  store_step (SUpdate MemoryManager.sessionId (lit "tasks") (update_description (lit "to do")) t1)
             tasks_db.

End Sample.

(* ================================================================= *)
(** ** Tactics *)


(** Split the outcome of a call of the manager into its cases. *)
Ltac outcomes call := destruct call as [[[?b|]|?e] ?st'].

(* ################################################################# *)
(** * Properties *)

(* ================================================================= *)
(** ** Strings *)

Section StringFacts.

Lemma str_eqb_eq (a b : jsstring) : str_eqb a b = true <-> a = b.
Proof.
  revert b; induction a as [|x a IH]; intros [|y b]; simpl;
    try (split; [discriminate | congruence]); try tauto.
  rewrite andb_true_iff, N.eqb_eq, IH. split.
  - intros [-> ->]; reflexivity.
  - intros H; inversion H; auto.
Qed.

Lemma str_eqb_refl (a : jsstring) : str_eqb a a = true.
Proof. apply str_eqb_eq; reflexivity. Qed.

Lemma str_eqb_neq (a b : jsstring) : str_eqb a b = false <-> a <> b.
Proof.
  rewrite <- str_eqb_eq. destruct (str_eqb a b); split; congruence.
Qed.

Lemma truthy_nonempty (s : jsstring) : truthy s = true <-> s <> [].
Proof. destruct s; simpl; split; congruence. Qed.

Lemma split_nonempty (sep : N) (text : jsstring) : split sep text <> [].
Proof.
  destruct text as [|c rest]; simpl; [discriminate|].
  destruct (N.eqb c sep); [discriminate|].
  destruct (split sep rest); discriminate.
Qed.

Lemma join_cons (sep p : jsstring) (rest : list jsstring) :
  rest <> [] -> join sep (p :: rest) = p ++ sep ++ join sep rest.
Proof. destruct rest; [congruence | reflexivity]. Qed.

(** Splitting at a separator and joining with it gives the text back. *)
Lemma join_split (sep : N) (text : jsstring) :
  join [sep] (split sep text) = text.
Proof.
  induction text as [|c rest IH]; [reflexivity|].
  simpl split. destruct (N.eqb c sep) eqn:E.
  - apply N.eqb_eq in E; subst c.
    rewrite join_cons by apply split_nonempty.
    rewrite IH; reflexivity.
  - pose proof (split_nonempty sep rest) as NE.
    destruct (split sep rest) as [|line lines]; [congruence|].
    destruct lines as [|l2 lines].
    + simpl in *. congruence.
    + rewrite join_cons by discriminate.
      rewrite join_cons in IH by discriminate.
      rewrite <- IH. reflexivity.
Qed.

(** A text has one line more than it has separators. *)
Lemma length_split (sep : N) (text : jsstring) :
  length (split sep text) = S (count_occ N.eq_dec text sep).
Proof.
  induction text as [|c rest IH]; [reflexivity|].
  simpl split. simpl count_occ.
  destruct (N.eqb c sep) eqn:E.
  - apply N.eqb_eq in E. destruct (N.eq_dec c sep); [|congruence].
    simpl. rewrite IH; reflexivity.
  - apply N.eqb_neq in E. destruct (N.eq_dec c sep); [congruence|].
    pose proof (split_nonempty sep rest) as NE.
    destruct (split sep rest); [congruence|]. simpl in *. exact IH.
Qed.

Lemma starts_with_app (p s : jsstring) :
  starts_with p s = true <-> exists t, s = p ++ t.
Proof.
  revert s; induction p as [|x p IH]; intros s; simpl.
  - split; [intros _; exists s; reflexivity | reflexivity].
  - destruct s as [|y s].
    + split; [discriminate | intros [t H]; discriminate].
    + rewrite andb_true_iff, N.eqb_eq, IH. split.
      * intros [-> [t ->]]. exists t; reflexivity.
      * intros [t H]. inversion H; subst. split; [reflexivity | exists t; reflexivity].
Qed.

Lemma indexOf_unfold (s p : jsstring) :
  indexOf s p =
  if starts_with p s then Some 0
  else match s with
       | [] => None
       | _ :: s' => option_map S (indexOf s' p)
       end.
Proof. destruct s; reflexivity. Qed.

(** [indexOf] finds an occurrence, and no occurrence starts before it. *)
Lemma indexOf_first (s p : jsstring) (n : nat) :
  indexOf s p = Some n ->
  first_occurrence p s (firstn n s) (skipn (n + length p) s).
Proof.
  revert n; induction s as [|c s IH]; intros n; rewrite indexOf_unfold.
  - destruct (starts_with p []) eqn:E; [|discriminate].
    intros H; inversion H; subst n.
    apply starts_with_app in E. destruct E as [t E].
    destruct p; [|discriminate]. split; simpl; [reflexivity | intros; lia].
  - destruct (starts_with p (c :: s)) eqn:E.
    + intros H; inversion H; subst n.
      apply starts_with_app in E. destruct E as [t E].
      split; [|simpl; intros; lia].
      simpl firstn. simpl plus. rewrite E at 2.
      rewrite skipn_app, skipn_all, Nat.sub_diag. simpl. exact E.
    + destruct (indexOf s p) as [m|] eqn:I; [|discriminate].
      intros H; inversion H; subst n. destruct (IH m eq_refl) as [Hs Hmin].
      split.
      * simpl. f_equal. exact Hs.
      * intros pre' post' Hp. destruct pre' as [|x pre'].
        -- exfalso. assert (starts_with p (c :: s) = true) as C
             by (apply starts_with_app; exists post'; exact Hp).
           congruence.
        -- simpl in Hp. injection Hp as _ Hs'.
           pose proof (Hmin _ _ Hs'). simpl. lia.
Qed.

Lemma indexOf_none (s p : jsstring) :
  indexOf s p = None -> ~ substring p s.
Proof.
  induction s as [|c s IH]; rewrite indexOf_unfold.
  - destruct (starts_with p []) eqn:E; [discriminate|].
    intros _ [pre [post H]]. destruct pre; [|discriminate].
    assert (starts_with p [] = true) as C
      by (apply starts_with_app; exists post; exact H).
    congruence.
  - destruct (starts_with p (c :: s)) eqn:E; [discriminate|].
    destruct (indexOf s p) eqn:I; [discriminate|].
    intros _ [pre [post H]]. destruct pre as [|x pre].
    + assert (starts_with p (c :: s) = true) as C
        by (apply starts_with_app; exists post; exact H).
      congruence.
    + simpl in H. inversion H. apply IH; [reflexivity|].
      exists pre, post; assumption.
Qed.

Lemma includes_substring (s p : jsstring) :
  includes s p = true <-> substring p s.
Proof.
  unfold includes. destruct (indexOf s p) as [n|] eqn:I.
  - split; [intros _ | reflexivity].
    destruct (indexOf_first _ _ _ I) as [H _].
    eexists; eexists; exact H.
  - split; [discriminate|]. intros H. exfalso. eapply indexOf_none; eassumption.
Qed.

(** A template without a dollar sign stands for itself. *)
Lemma GetSubstitution_plain (matched before after template : jsstring) :
  ~ In dollar template ->
  GetSubstitution matched before after template = template.
Proof.
  induction template as [|c rest IH]; [reflexivity|].
  intros H. simpl. destruct (N.eqb c dollar) eqn:E.
  - apply N.eqb_eq in E. exfalso; apply H; left; assumption.
  - rewrite IH; [reflexivity|]. intros C; apply H; right; assumption.
Qed.

(** [replace] with a plain replacement puts it in place of the first
    occurrence. *)
Lemma replace_first (s old new : jsstring) :
  substring old s -> ~ In dollar new ->
  exists pre post, first_occurrence old s pre post
                   /\ replace s old new = pre ++ new ++ post.
Proof.
  intros Hsub Hplain. unfold replace.
  destruct (indexOf s old) as [n|] eqn:I.
  - exists (firstn n s), (skipn (n + length old) s). split.
    + apply indexOf_first; assumption.
    + rewrite GetSubstitution_plain by assumption. reflexivity.
  - exfalso. eapply indexOf_none; eassumption.
Qed.

End StringFacts.

(* ================================================================= *)
(** ** The compiler *)

Section CompilerFacts.

Lemma positions_from_cons {A} (i : nat) (x : A) (l : list A) :
  positions_from i (x :: l) = (i, x) :: positions_from (S i) l.
Proof. reflexivity. Qed.

Lemma compile_loop_pieces (u : bool) (len : nat) (rest : list MemoryBlock) :
  forall idx s,
    Compiler.compile_loop u len idx rest s =
    s ++ concat (map (fun p => Compiler.push_block u (snd p) (negb (fst p <? len - 1)))
                     (filter (fun p => visible (snd p)) (positions_from idx rest))).
Proof.
  induction rest as [|b rest IH]; intros idx s.
  - simpl. rewrite app_nil_r. reflexivity.
  - rewrite positions_from_cons. simpl. unfold visible at 1.
    destruct (flag (hidden b)); simpl.
    + apply IH.
    + rewrite IH, <- app_assoc. reflexivity.
Qed.

Lemma visible_positions (l : list MemoryBlock) :
  forall i, map snd (filter (fun p => visible (snd p)) (positions_from i l))
            = filter visible l.
Proof.
  induction l as [|b l IH]; intros i; [reflexivity|].
  rewrite positions_from_cons. simpl.
  destruct (visible b); simpl; rewrite IH; reflexivity.
Qed.

Lemma number_lines_spec (lines : list jsstring) :
  forall i result,
    Compiler.number_lines i lines result =
    result ++ map (fun p => of_nat (fst p + 1) ++ [arrow; 32%N] ++ snd p)
                  (positions_from i lines).
Proof.
  induction lines as [|line lines IH]; intros i result.
  - simpl. rewrite app_nil_r. reflexivity.
  - rewrite positions_from_cons. simpl. rewrite IH, <- app_assoc. reflexivity.
Qed.

Lemma renderWithLineNumbers_numbered (text : jsstring) :
  text <> [] ->
  Compiler.renderWithLineNumbers text = numbered (split newline text).
Proof.
  intros NE. unfold Compiler.renderWithLineNumbers.
  destruct text; [congruence|]. simpl truthy. cbv iota.
  rewrite number_lines_spec. reflexivity.
Qed.

Lemma length_numbered (lines : list jsstring) :
  length (numbered lines) = length lines.
Proof.
  unfold numbered, positions_from.
  rewrite length_map, length_combine, length_seq. apply Nat.min_id.
Qed.

End CompilerFacts.

(** The text [compileMemory] builds, as pieces. *)
Lemma hidden_blocks_shape
    (blocks : list MemoryBlock) (options : option MemoryCompileOptions) :
  Compiler.compileMemory blocks options =
    match blocks with
    | [] => []
    | _ :: _ =>
        join [newline]
          (Compiler.opening
           ++ concat (map (fun p =>
                             Compiler.push_block
                               (Compiler.shouldUseLineNumbers options) (snd p)
                               (negb (fst p <? length blocks - 1)))
                          (rendered blocks))
           ++ [lit "</memory_blocks>"])
    end
  /\ map snd (rendered blocks) = filter visible blocks.
Proof.
  split; [|apply visible_positions].
  destruct blocks as [|b rest]; [reflexivity|].
  unfold Compiler.compileMemory, Compiler.compiled_pieces.
  rewrite compile_loop_pieces, <- app_assoc. reflexivity.
Qed.

(** The test of the specification: one hidden block between two visible
    ones. *)
Example hidden_between_visible :
  let a := Sample.block (lit "alpha") (lit "one") 100 false false in
  let h := Sample.block (lit "secret") (lit "two") 100 false true in
  let b := Sample.block (lit "beta") (lit "three") 100 true false in
  Compiler.compileMemory [a; h; b] None
  = join [newline]
      (Compiler.opening
       ++ Compiler.push_block false a false
       ++ Compiler.push_block false b true
       ++ [lit "</memory_blocks>"])
  /\ Compiler.compileMemory [a; h; b] None = Compiler.compileMemory [a; b] None
  /\ map cb_label (Compiler.getCompiledMemoryBlocks [a; h; b])
     = [lit "alpha"; lit "beta"].
Proof. repeat split. Qed.

Lemma positions_from_app {A} (a b : list A) :
  forall i, positions_from i (a ++ b)
            = positions_from i a ++ positions_from (i + length a) b.
Proof.
  induction a as [|x a IH]; intros i.
  - simpl. rewrite Nat.add_0_r. reflexivity.
  - simpl app. rewrite !positions_from_cons, IH. simpl length.
    rewrite Nat.add_succ_r. reflexivity.
Qed.

Lemma positions_from_bounds {A} (l : list A) :
  forall i p, In p (positions_from i l) -> i <= fst p < i + length l.
Proof.
  induction l as [|x l IH]; intros i p H; [contradiction|].
  rewrite positions_from_cons in H. destruct H as [<-|H].
  - simpl. lia.
  - apply IH in H. simpl. lia.
Qed.

Lemma positions_from_succ {A} (l : list A) :
  forall i, positions_from (S i) l
            = map (fun p => (S (fst p), snd p)) (positions_from i l).
Proof.
  induction l as [|x l IH]; intros i; [reflexivity|].
  rewrite !positions_from_cons. simpl. rewrite IH. reflexivity.
Qed.

(** A hidden block that is not the last element of the input can be taken
    out of the input without any change to the compiled text. *)
Lemma hidden_block_not_last_can_be_dropped
    (pre post : list MemoryBlock) (h : MemoryBlock)
    (options : option MemoryCompileOptions) :
  flag (hidden h) = true -> post <> [] ->
  Compiler.compileMemory (pre ++ h :: post) options
  = Compiler.compileMemory (pre ++ post) options.
Proof.
  intros Hh NE.
  destruct (hidden_blocks_shape (pre ++ h :: post) options) as [E1 _].
  destruct (hidden_blocks_shape (pre ++ post) options) as [E2 _].
  rewrite E1, E2. clear E1 E2.
  destruct (pre ++ h :: post) eqn:L1; [destruct pre; discriminate|].
  destruct (pre ++ post) eqn:L2; [destruct pre, post; try discriminate; congruence|].
  rewrite <- L1, <- L2. clear L1 L2. do 4 f_equal.
  unfold rendered. rewrite !positions_from_app, !filter_app, !map_app.
  rewrite positions_from_cons. simpl filter. unfold visible at 2.
  rewrite Hh. simpl negb. cbv iota.
  rewrite !length_app. simpl length.
  assert (length post <> 0) as Np by (destruct post; simpl; congruence).
  f_equal.
  - apply map_ext_in. intros p Hp. apply filter_In in Hp. destruct Hp as [Hp _].
    apply positions_from_bounds in Hp. f_equal. f_equal.
    transitivity true; [|symmetry]; apply Nat.ltb_lt; lia.
  - rewrite positions_from_succ.
    assert (forall ps : list (nat * MemoryBlock),
              filter (fun p => visible (snd p))
                     (map (fun p => (S (fst p), snd p)) ps)
              = map (fun p => (S (fst p), snd p))
                    (filter (fun p => visible (snd p)) ps)) as C.
    { intros ps. induction ps as [|x ps IH]; [reflexivity|]. simpl.
      destruct (visible (snd x)); simpl; rewrite IH; reflexivity. }
    rewrite C, map_map. apply map_ext_in. intros p Hp. simpl.
    apply filter_In in Hp. destruct Hp as [Hp _].
    apply positions_from_bounds in Hp. f_equal. f_equal.
    destruct (fst p <? length pre + length post - 1) eqn:T.
    + apply Nat.ltb_lt in T. apply Nat.ltb_lt. lia.
    + apply Nat.ltb_ge in T. apply Nat.ltb_ge. lia.
Qed.

(** The separator after a visible block is decided by its index in the
    input, where hidden blocks count: a visible block followed by hidden
    blocks only is still followed by the empty separator piece. *)
Remark separator_counts_hidden_blocks :
  let a := Sample.block (lit "alpha") (lit "one") 100 false false in
  let h := Sample.block (lit "secret") (lit "two") 100 false true in
  Compiler.compileMemory [a; h] None
  = join [newline]
      (Compiler.opening
       ++ Compiler.push_block false a false
       ++ [lit "</memory_blocks>"])
  /\ Compiler.compileMemory [a] None
     = join [newline]
         (Compiler.opening
          ++ Compiler.push_block false a true
          ++ [lit "</memory_blocks>"]).
Proof. split; reflexivity. Qed.

(** C8, what fails: the empty value splits into one empty line, which the
    numbered rendering does not emit. *)
Lemma numbered_rendering_of_empty_value :
  split newline [] = [[]]
  /\ numbered (split newline []) = [lit "1" ++ [arrow; 32%N]]
  /\ Compiler.renderWithLineNumbers [] = []
  /\ Compiler.renderWithLineNumbers [] <> numbered (split newline []).
Proof. repeat split; try reflexivity. vm_compute. discriminate. Qed.

(* ================================================================= *)
(** ** Lists *)

Section ListFacts.

Context {A B : Type}.

Lemma find_map_same (p : A -> bool) (f : A -> A) (l : list A) :
  (forall x, p (f x) = p x) ->
  find p (map f l) = option_map f (find p l).
Proof.
  intros H. induction l as [|x l IH]; [reflexivity|].
  simpl. rewrite H. destruct (p x); [reflexivity | exact IH].
Qed.

Lemma find_map_fixed (p : A -> bool) (f : A -> A) (l : list A) :
  (forall x, p (f x) = p x) -> (forall x, p x = true -> f x = x) ->
  find p (map f l) = find p l.
Proof.
  intros H1 H2. rewrite find_map_same by assumption.
  destruct (find p l) as [x|] eqn:E; [|reflexivity].
  simpl. apply find_some in E. rewrite H2; tauto.
Qed.

Lemma find_app (p : A -> bool) (l1 l2 : list A) :
  find p (l1 ++ l2) = match find p l1 with Some x => Some x | None => find p l2 end.
Proof.
  induction l1 as [|x l1 IH]; [reflexivity|].
  simpl. destruct (p x); [reflexivity | exact IH].
Qed.

Lemma find_filter_other (p q : A -> bool) (l : list A) :
  (forall x, p x = true -> q x = true) ->
  find p (filter q l) = find p l.
Proof.
  intros H. induction l as [|x l IH]; [reflexivity|].
  simpl. destruct (q x) eqn:Q; simpl.
  - destruct (p x); [reflexivity | exact IH].
  - destruct (p x) eqn:P; [|exact IH].
    apply H in P. congruence.
Qed.

Lemma find_filter_none (p q : A -> bool) (l : list A) :
  (forall x, p x = true -> q x = false) ->
  find p (filter q l) = None.
Proof.
  intros H. induction l as [|x l IH]; [reflexivity|].
  simpl. destruct (q x) eqn:Q; simpl; [|exact IH].
  destruct (p x) eqn:P; [|exact IH]. apply H in P. congruence.
Qed.

Lemma existsb_false (p : A -> bool) (l : list A) :
  existsb p l = false <-> forall x, In x l -> p x = false.
Proof.
  split.
  - intros H x Hx. destruct (p x) eqn:P; [|reflexivity].
    rewrite <- H. symmetry. apply existsb_exists. exists x; auto.
  - intros H. destruct (existsb p l) eqn:E; [|reflexivity].
    apply existsb_exists in E. destruct E as (x & Hx & P).
    rewrite H in P by assumption. discriminate.
Qed.

Lemma existsb_find (p : A -> bool) (l : list A) :
  existsb p l = match find p l with Some _ => true | None => false end.
Proof.
  induction l as [|x l IH]; [reflexivity|].
  simpl. destruct (p x); [reflexivity | exact IH].
Qed.

Lemma NoDup_map_filter (keep : A -> bool) (key : A -> B) :
  forall rows : list A,
    NoDup (map key rows) -> NoDup (map key (filter keep rows)).
Proof.
  intros rows. induction rows as [|x rows IH]; simpl; intros H; [constructor|].
  inversion H as [|y ys Hin Hnd]; subst.
  destruct (keep x); simpl; [|auto].
  constructor; [|auto].
  intros C. apply Hin. apply in_map_iff in C. destruct C as (z & Hz & Hf).
  apply filter_In in Hf. apply in_map_iff. exists z; tauto.
Qed.

Lemma NoDup_map_eq (f : A -> B) (l : list A) (x y : A) :
  NoDup (map f l) -> In x l -> In y l -> f x = f y -> x = y.
Proof.
  induction l as [|z l IH]; simpl; intros H Hx Hy E; [contradiction|].
  inversion H as [|? ? Hin Hnd]; subst.
  destruct Hx as [->|Hx], Hy as [->|Hy]; auto.
  - exfalso. apply Hin. rewrite E. apply in_map; assumption.
  - exfalso. apply Hin. rewrite <- E. apply in_map; assumption.
Qed.

Lemma NoDup_map_snoc (f : A -> B) (l : list A) (x : A) :
  NoDup (map f l) -> (forall y, In y l -> f y <> f x) ->
  NoDup (map f (l ++ [x])).
Proof.
  intros H Hx. rewrite map_app. simpl.
  apply NoDup_app; [assumption | repeat constructor; simpl; tauto |].
  intros b Hb [<-|[]]. apply in_map_iff in Hb. destruct Hb as (y & E & Hy).
  apply (Hx y); assumption.
Qed.

Lemma map_map_same (f : A -> B) (g : A -> A) (l : list A) :
  (forall x, f (g x) = f x) -> map f (map g l) = map f l.
Proof.
  intros H. rewrite map_map. apply map_ext. assumption.
Qed.

Lemma filter_map_same (p : A -> bool) (g : A -> A) (l : list A) :
  (forall x, p (g x) = p x) -> filter p (map g l) = map g (filter p l).
Proof.
  intros H. induction l as [|x l IH]; [reflexivity|].
  simpl. rewrite H. destruct (p x); simpl; rewrite IH; reflexivity.
Qed.

End ListFacts.

(* ================================================================= *)
(** ** The store *)

Section StoreFacts.

Import MemoryDatabase.

Lemma where_label_true (s l : jsstring) (r : BlockRow) :
  where_label s l r = true <-> session_id r = s /\ r_label r = l.
Proof.
  unfold where_label. rewrite andb_true_iff, !str_eqb_eq. tauto.
Qed.

Lemma where_session_true (s : jsstring) (r : BlockRow) :
  where_session s r = true <-> session_id r = s.
Proof. unfold where_session. apply str_eqb_eq. Qed.

Lemma label_of_row (r : BlockRow) : label (row_to_block r) = r_label r.
Proof. reflexivity. Qed.

Lemma getBlockByLabel_row (s l : jsstring) (d : Database) (b : MemoryBlock) :
  getBlockByLabel s l d = Some b <->
  exists r, find (where_label s l) (memory_blocks d) = Some r /\ b = row_to_block r.
Proof.
  unfold getBlockByLabel. destruct (find _ _) as [r|]; simpl; split.
  - intros H; inversion H; eauto.
  - intros (r' & H & ->). inversion H; reflexivity.
  - discriminate.
  - intros (r' & H & _); discriminate.
Qed.

Lemma getBlockByLabel_label (s l : jsstring) (d : Database) (b : MemoryBlock) :
  getBlockByLabel s l d = Some b -> label b = l.
Proof.
  intros H. apply getBlockByLabel_row in H. destruct H as (r & F & ->).
  apply find_some in F. destruct F as [_ F]. apply where_label_true in F. tauto.
Qed.

(** [UNIQUE(session_id, label)]. *)
Lemma unique_row (d : Database) (r1 r2 : BlockRow) :
  wf_db d -> In r1 (memory_blocks d) -> In r2 (memory_blocks d) ->
  session_id r1 = session_id r2 -> r_label r1 = r_label r2 -> r1 = r2.
Proof.
  intros (_ & U & _) H1 H2 Es El.
  apply (NoDup_map_eq r_label _ _ _ (U (session_id r1))); auto;
    apply filter_In; split; auto; apply where_session_true; congruence.
Qed.

Lemma find_row (d : Database) (r : BlockRow) :
  wf_db d -> In r (memory_blocks d) ->
  find (where_label (session_id r) (r_label r)) (memory_blocks d) = Some r.
Proof.
  intros W H.
  destruct (find _ (memory_blocks d)) as [r'|] eqn:F.
  - apply find_some in F. destruct F as [Hin F]. apply where_label_true in F.
    f_equal. apply (unique_row d); tauto.
  - exfalso. apply (find_none _ _ F) in H.
    assert (where_label (session_id r) (r_label r) r = true)
      by (apply where_label_true; tauto).
    congruence.
Qed.

(** The primary key of [memory_blocks]. *)
Lemma unique_id (d : Database) (r1 r2 : BlockRow) :
  wf_db d -> In r1 (memory_blocks d) -> In r2 (memory_blocks d) ->
  r_id r1 = r_id r2 -> r1 = r2.
Proof. intros (P & _) H1 H2 E. exact (NoDup_map_eq r_id _ _ _ P H1 H2 E). Qed.

Lemma wf_empty : wf_db empty.
Proof.
  repeat split; simpl; try constructor; intros; contradiction.
Qed.

Lemma wf_next (d : Database) (n : N) :
  wf_db d -> (next_uuid d <= n)%N ->
  wf_db {| memory_blocks := memory_blocks d;
           memory_block_history := memory_block_history d;
           next_uuid := n |}.
Proof.
  intros (P & U & Br & Bh) Hn. repeat split; simpl; auto.
  - intros r Hr. specialize (Br r Hr). lia.
  - specialize (Bh h H). lia.
  - specialize (Bh h H). lia.
Qed.

Lemma wf_map_rows (d : Database) (f : BlockRow -> BlockRow) :
  (forall x, r_id (f x) = r_id x) ->
  (forall x, session_id (f x) = session_id x) ->
  (forall x, r_label (f x) = r_label x) ->
  wf_db d ->
  wf_db {| memory_blocks := map f (memory_blocks d);
           memory_block_history := memory_block_history d;
           next_uuid := next_uuid d |}.
Proof.
  intros Hi Hs Hl (P & U & Br & Bh). repeat split; simpl; auto.
  - rewrite map_map_same by assumption. assumption.
  - intros s. rewrite filter_map_same, map_map_same; auto.
    intros x. unfold where_session. rewrite Hs. reflexivity.
  - intros r Hr. apply in_map_iff in Hr. destruct Hr as (x & <- & Hx).
    rewrite Hi. auto.
  - apply Bh; assumption.
  - apply Bh; assumption.
Qed.

Lemma wf_add_history (d : Database) (h : MemoryBlockHistory) :
  wf_db d -> (h_id h < next_uuid d)%N -> (h_blockId h < next_uuid d)%N ->
  wf_db {| memory_blocks := memory_blocks d;
           memory_block_history := memory_block_history d ++ [h];
           next_uuid := next_uuid d |}.
Proof.
  intros (P & U & Br & Bh) H1 H2. repeat split; simpl; auto;
    apply in_app_or in H; destruct H as [H|[<-|[]]]; auto; apply Bh; assumption.
Qed.

Lemma wf_add_row (d : Database) (row : BlockRow) :
  wf_db d -> (r_id row < next_uuid d)%N ->
  existsb (fun r => N.eqb (r_id r) (r_id row)) (memory_blocks d) = false ->
  existsb (where_label (session_id row) (r_label row)) (memory_blocks d) = false ->
  wf_db {| memory_blocks := memory_blocks d ++ [row];
           memory_block_history := memory_block_history d;
           next_uuid := next_uuid d |}.
Proof.
  intros (P & U & Br & Bh) Hb Hid Hl. repeat split; simpl; auto.
  - apply NoDup_map_snoc; [assumption|].
    intros y Hy. rewrite existsb_false in Hid. apply Hid in Hy.
    apply N.eqb_neq in Hy. assumption.
  - intros s. rewrite filter_app. simpl.
    destruct (where_session s row) eqn:S; [|rewrite app_nil_r; apply U].
    apply NoDup_map_snoc; [apply U|].
    intros y Hy E. apply filter_In in Hy. destruct Hy as [Hy Sy].
    rewrite existsb_false in Hl. apply Hl in Hy.
    apply where_session_true in S, Sy.
    assert (where_label (session_id row) (r_label row) y = true)
      by (apply where_label_true; split; congruence).
    congruence.
  - intros r Hr. apply in_app_or in Hr. destruct Hr as [Hr|[<-|[]]]; auto.
  - apply Bh; assumption.
  - apply Bh; assumption.
Qed.

Lemma wf_delete (d : Database) (p : BlockRow -> bool) :
  wf_db d -> wf_db (delete_where p d).
Proof.
  intros (P & U & Br & Bh). repeat split; simpl.
  - apply NoDup_map_filter; assumption.
  - intros s.
    assert (forall l, filter (where_session s) (filter (fun r => negb (p r)) l)
                      = filter (fun r => negb (p r)) (filter (where_session s) l)) as C.
    { induction l as [|x l IH]; [reflexivity|]. simpl.
      destruct (negb (p x)) eqn:E1, (where_session s x) eqn:E2; simpl;
        rewrite ?E1, ?E2, IH; reflexivity. }
    rewrite C. apply NoDup_map_filter. apply U.
  - intros r Hr. apply filter_In in Hr. apply Br; tauto.
  - apply filter_In in H. apply Bh; tauto.
  - apply filter_In in H. apply Bh; tauto.
Qed.

End StoreFacts.

Section StoreCalls.

Import MemoryDatabase.

Lemma createHistoryEntry_ok (d : Database) (blockId : uuid) (l v : jsstring)
    (ver : Z) (t by_ : jsstring) :
  wf_db d ->
  existsb (fun r => N.eqb (r_id r) blockId) (memory_blocks d) = true ->
  createHistoryEntry blockId l v ver t by_ d =
  (Ok tt,
   {| memory_blocks := memory_blocks d;
      memory_block_history :=
        memory_block_history d
        ++ [{| h_id := next_uuid d; h_blockId := blockId; h_label := l;
               h_value := v; h_version := ver; h_createdAt := t;
               h_createdBy := by_ |}];
      next_uuid := N.succ (next_uuid d) |}).
Proof.
  intros (_ & _ & _ & Bh) FK.
  unfold createHistoryEntry, bind, randomUUID, insert_history. simpl.
  replace (existsb _ (memory_block_history d)) with false.
  - rewrite FK. reflexivity.
  - symmetry. apply existsb_false. intros h Hh. apply N.eqb_neq.
    specialize (Bh h Hh). lia.
Qed.

(** The update statement of [updateBlock], on one row. *)
Lemma set_where (s l : jsstring) (u : UpdateMemoryBlock) (now : Timestamp)
    (v : Z) (s' l' : jsstring) (x : BlockRow) :
  where_label s' l'
    (if where_label s l x then set_columns u now v x else x)
  = where_label s' l' x.
Proof. destruct (where_label s l x); reflexivity. Qed.

Lemma db_updateBlock_absent (s l : jsstring) (u : UpdateMemoryBlock)
    (now : Timestamp) (d : Database) :
  find (where_label s l) (memory_blocks d) = None ->
  updateBlock s l u now d = (Ok None, d).
Proof.
  intros F. unfold updateBlock, getBlockByLabel. rewrite F. reflexivity.
Qed.

Lemma db_updateBlock_found (s l : jsstring) (u : UpdateMemoryBlock)
    (now : Timestamp) (d : Database) (r : BlockRow) :
  wf_db d ->
  find (where_label s l) (memory_blocks d) = Some r ->
  updateBlock s l u now d =
  (Ok (Some (row_to_block (set_columns u now (r_version r + 1) r))),
   {| memory_blocks :=
        map (fun row => if where_label s l row
                        then set_columns u now (r_version r + 1) row else row)
            (memory_blocks d);
      memory_block_history :=
        memory_block_history d
        ++ match u_value u with
           | Some v => [{| h_id := next_uuid d; h_blockId := r_id r; h_label := l;
                           h_value := v; h_version := (r_version r + 1)%Z;
                           h_createdAt := now; h_createdBy := lit "agent" |}]
           | None => []
           end;
      next_uuid := match u_value u with
                   | Some _ => N.succ (next_uuid d)
                   | None => next_uuid d
                   end |}).
Proof.
  intros W F. unfold updateBlock, getBlockByLabel. rewrite F. simpl.
  set (f := fun row => if where_label s l row
                       then set_columns u now (r_version r + 1) row else row).
  set (d1 := {| memory_blocks := map f (memory_blocks d);
                memory_block_history := memory_block_history d;
                next_uuid := next_uuid d |}).
  assert (find (where_label s l) (map f (memory_blocks d))
          = Some (set_columns u now (r_version r + 1) r)) as F1.
  { rewrite find_map_same by (intros x; apply set_where).
    rewrite F. simpl. unfold f. apply find_some in F. destruct F as [_ ->].
    reflexivity. }
  unfold bind at 1. unfold update_rows. fold f. fold d1.
  destruct (u_value u) as [v|].
  - unfold bind. rewrite createHistoryEntry_ok.
    + simpl. unfold getBlockByLabel. simpl. rewrite F1. reflexivity.
    + apply wf_map_rows; auto; intros x; unfold f;
        destruct (where_label s l x); reflexivity.
    + simpl. rewrite existsb_exists. exists (f r). split.
      * apply in_map. apply find_some in F. tauto.
      * unfold f. destruct (where_label s l r); apply N.eqb_refl.
  - unfold bind, ret. simpl. unfold getBlockByLabel. simpl. rewrite F1.
    rewrite app_nil_r. reflexivity.
Qed.

Lemma db_createBlock_result (s : jsstring) (block : CreateMemoryBlock)
    (now : Timestamp) (d : Database) :
  wf_db d ->
  let i := next_uuid d in
  let row := new_row i s block now 1 in
  createBlock s block now d =
  if existsb (where_label s (c_label block)) (memory_blocks d)
  then (Throw (SqliteError
          (lit "UNIQUE constraint failed: memory_blocks.session_id, memory_blocks.label")),
        {| memory_blocks := memory_blocks d;
           memory_block_history := memory_block_history d;
           next_uuid := N.succ i |})
  else (Ok (Some (row_to_block row)),
        {| memory_blocks := memory_blocks d ++ [row];
           memory_block_history :=
             memory_block_history d
             ++ [{| h_id := N.succ i; h_blockId := i; h_label := c_label block;
                    h_value := or_else (c_value block) []; h_version := 1%Z;
                    h_createdAt := now; h_createdBy := lit "agent" |}];
           next_uuid := N.succ (N.succ i) |}).
Proof.
  intros W i row.
  assert (existsb (fun r => N.eqb (r_id r) i) (memory_blocks d) = false) as Fresh.
  { apply existsb_false. intros r Hr. apply N.eqb_neq.
    destruct W as (_ & _ & Br & _). specialize (Br r Hr). unfold i. lia. }
  unfold createBlock, bind at 1, randomUUID. fold i.
  unfold bind at 1, insert_block. simpl. fold i. rewrite Fresh.
  destruct (existsb (where_label s (c_label block)) (memory_blocks d)) eqn:Dup;
    [reflexivity|].
  unfold bind. fold row.
  set (d2 := {| memory_blocks := memory_blocks d ++ [row];
                memory_block_history := memory_block_history d;
                next_uuid := N.succ i |}).
  assert (wf_db d2) as W2.
  { apply (wf_add_row {| memory_blocks := memory_blocks d;
                         memory_block_history := memory_block_history d;
                         next_uuid := N.succ i |} row); simpl; auto.
    - apply wf_next; [assumption | unfold i; lia].
    - lia. }
  rewrite (createHistoryEntry_ok d2) by
    (auto; simpl; rewrite existsb_app; simpl; rewrite N.eqb_refl;
     apply orb_true_iff; right; reflexivity).
  simpl. unfold getBlock. simpl. rewrite find_app.
  rewrite existsb_find in Fresh.
  destruct (find _ (memory_blocks d)); [discriminate|].
  simpl. rewrite N.eqb_refl. reflexivity.
Qed.

End StoreCalls.

Section StoreInvariants.

Import MemoryDatabase.

Lemma wf_updateBlock (s l : jsstring) (u : UpdateMemoryBlock) (now : Timestamp)
    (d : Database) :
  wf_db d -> wf_db (snd (updateBlock s l u now d)).
Proof.
  intros W. destruct (find (where_label s l) (memory_blocks d)) as [r|] eqn:F.
  - rewrite (db_updateBlock_found s l u now d r W F). simpl.
    set (f := fun row => if where_label s l row
                         then set_columns u now (r_version r + 1) row else row).
    assert (wf_db {| memory_blocks := map f (memory_blocks d);
                     memory_block_history := memory_block_history d;
                     next_uuid := next_uuid d |}) as W1.
    { apply wf_map_rows; auto; intros x; unfold f;
        destruct (where_label s l x); reflexivity. }
    destruct (u_value u) as [v|].
    + apply (wf_add_history
               {| memory_blocks := map f (memory_blocks d);
                  memory_block_history := memory_block_history d;
                  next_uuid := N.succ (next_uuid d) |}); simpl.
      * apply (wf_next _ _ W1). simpl. lia.
      * lia.
      * apply find_some in F. destruct F as [F _].
        destruct W as (_ & _ & Br & _). specialize (Br r F). lia.
    + rewrite app_nil_r. exact W1.
  - rewrite db_updateBlock_absent by assumption. exact W.
Qed.

Lemma wf_createBlock (s : jsstring) (block : CreateMemoryBlock) (now : Timestamp)
    (d : Database) :
  wf_db d -> wf_db (snd (createBlock s block now d)).
Proof.
  intros W. rewrite db_createBlock_result by assumption.
  destruct (existsb (where_label s (c_label block)) (memory_blocks d)) eqn:Dup;
    simpl.
  - apply wf_next; [assumption | lia].
  - set (i := next_uuid d).
    set (row := new_row i s block now 1).
    assert (wf_db {| memory_blocks := memory_blocks d;
                     memory_block_history := memory_block_history d;
                     next_uuid := N.succ (N.succ i) |}) as W1
      by (apply wf_next; [assumption | unfold i; lia]).
    apply (wf_add_history
             {| memory_blocks := memory_blocks d ++ [row];
                memory_block_history := memory_block_history d;
                next_uuid := N.succ (N.succ i) |}); simpl; try lia.
    apply (wf_add_row _ row W1); simpl; try lia; auto.
    apply existsb_false. intros r Hr. apply N.eqb_neq.
    destruct W as (_ & _ & Br & _). specialize (Br r Hr). unfold i. lia.
Qed.

Lemma wf_store_step (c : StoreCall) (d : Database) :
  wf_db d -> wf_db (store_step c d).
Proof.
  intros W. destruct c; simpl.
  - apply wf_createBlock; assumption.
  - apply wf_updateBlock; assumption.
  - apply wf_delete; assumption.
  - apply wf_delete; assumption.
Qed.

Lemma reachable_wf (d : Database) : reachable d -> wf_db d.
Proof.
  induction 1; [apply wf_empty | apply wf_store_step; assumption].
Qed.

Lemma history_of_app (i : uuid) (rows : list BlockRow)
    (hs extra : list MemoryBlockHistory) (n : N) :
  history_of i {| memory_blocks := rows; memory_block_history := hs ++ extra;
                  next_uuid := n |}
  = filter (fun x => N.eqb (h_blockId x) i) hs
    ++ filter (fun x => N.eqb (h_blockId x) i) extra.
Proof. unfold history_of. simpl. apply filter_app. Qed.

Lemma has_version_app (v : Z) (a b : list MemoryBlockHistory) :
  has_version v a = true -> has_version v (a ++ b) = true.
Proof.
  unfold has_version. intros H. rewrite existsb_app, H. reflexivity.
Qed.

Lemma has_version_In (v : Z) (hs : list MemoryBlockHistory) :
  has_version v hs = true <-> exists h, In h hs /\ h_version h = v.
Proof.
  unfold has_version. rewrite existsb_exists.
  split; intros (h & H1 & H2); exists h; split; auto; apply Z.eqb_eq; auto.
Qed.

Lemma history_within_update (s l : jsstring) (u : UpdateMemoryBlock)
    (now : Timestamp) (d : Database) :
  wf_db d -> history_within d ->
  history_within (snd (updateBlock s l u now d)).
Proof.
  intros W HW. destruct (find (where_label s l) (memory_blocks d)) as [r|] eqn:F;
    [|rewrite db_updateBlock_absent by assumption; exact HW].
  rewrite (db_updateBlock_found s l u now d r W F). simpl.
  pose proof (find_some _ _ F) as [Hr Mr].
  intros r' Hr'. simpl in Hr'. apply in_map_iff in Hr'.
  destruct Hr' as (x & <- & Hx).
  destruct (HW x Hx) as [V1 Bd].
  set (fx := if where_label s l x
             then set_columns u now (r_version r + 1) x else x).
  assert (r_id fx = r_id x) as Eid
    by (unfold fx; destruct (where_label s l x); reflexivity).
  assert (1 <= r_version x)%Z as Pos.
  { apply has_version_In in V1. destruct V1 as (h & Hh & E).
    specialize (Bd h Hh). lia. }
  assert ((r_version x <= r_version fx)%Z
          /\ (r_id x = r_id r -> r_version fx = (r_version r + 1)%Z))
    as [Mono New].
  { unfold fx. destruct (where_label s l x) eqn:Mx.
    - assert (x = r) as ->.
      { apply where_label_true in Mx, Mr. apply (unique_row d); auto.
        all: destruct Mx, Mr; congruence. }
      simpl. split; [lia | reflexivity].
    - split; [lia|]. intros E. assert (x = r) by (apply (unique_id d); auto).
      subst x. congruence. }
  rewrite Eid, history_of_app. split.
  - apply has_version_app. exact V1.
  - intros h Hh. apply in_app_or in Hh. destruct Hh as [Hh|Hh].
    + specialize (Bd h Hh). lia.
    + apply filter_In in Hh. destruct Hh as [Hh Eh]. apply N.eqb_eq in Eh.
      destruct (u_value u); [|contradiction].
      destruct Hh as [<-|[]]. simpl in *. rewrite New by congruence.
      assert (x = r) by (apply (unique_id d); auto). subst x. lia.
Qed.

Lemma history_within_create (s : jsstring) (block : CreateMemoryBlock)
    (now : Timestamp) (d : Database) :
  wf_db d -> history_within d ->
  history_within (snd (createBlock s block now d)).
Proof.
  intros W HW. rewrite db_createBlock_result by assumption.
  destruct (existsb (where_label s (c_label block)) (memory_blocks d));
    [exact HW|].
  simpl. destruct W as (_ & _ & Br & Bh).
  intros r Hr. simpl in Hr. rewrite history_of_app. simpl.
  apply in_app_or in Hr. destruct Hr as [Hr|[<-|[]]].
  - destruct (HW r Hr) as [V1 Bd]. specialize (Br r Hr).
    replace (N.eqb (next_uuid d) (r_id r)) with false
      by (symmetry; apply N.eqb_neq; lia).
    rewrite app_nil_r. split; assumption.
  - simpl. rewrite N.eqb_refl. split.
    + unfold has_version. rewrite existsb_app. simpl. apply orb_true_r.
    + intros h Hh. apply in_app_or in Hh. destruct Hh as [Hh|[<-|[]]].
      * apply filter_In in Hh. destruct Hh as [Hh Eh]. apply N.eqb_eq in Eh.
        specialize (Bh h Hh). lia.
      * simpl. lia.
Qed.

Lemma history_within_delete (p : BlockRow -> bool) (d : Database) :
  wf_db d -> history_within d -> history_within (delete_where p d).
Proof.
  intros W HW r Hr. simpl in Hr. apply filter_In in Hr. destruct Hr as [Hr Pr].
  assert (history_of (r_id r) (delete_where p d) = history_of (r_id r) d) as E.
  { unfold history_of, delete_where. simpl.
    induction (memory_block_history d) as [|h hs IH]; [reflexivity|].
    simpl. destruct (existsb _ (filter p (memory_blocks d))) eqn:X; simpl.
    - destruct (N.eqb (h_blockId h) (r_id r)) eqn:Eh; [|exact IH].
      exfalso. apply existsb_exists in X. destruct X as (y & Hy & Ey).
      apply filter_In in Hy. destruct Hy as [Hy Py].
      apply N.eqb_eq in Eh, Ey.
      assert (y = r) by (apply (unique_id d); auto; congruence).
      subst y. rewrite Py in Pr. discriminate.
    - destruct (N.eqb (h_blockId h) (r_id r)); rewrite IH; reflexivity. }
  rewrite E. apply HW; assumption.
Qed.

Lemma history_within_step (c : StoreCall) (d : Database) :
  wf_db d -> history_within d -> history_within (store_step c d).
Proof.
  intros W HW. destruct c; simpl.
  - apply history_within_create; assumption.
  - apply history_within_update; assumption.
  - apply history_within_delete; assumption.
  - apply history_within_delete; assumption.
Qed.

End StoreInvariants.

(* ================================================================= *)
(** ** The manager: the cache mirrors the store *)

Section CacheFacts.

Import MemoryDatabase.
Import MemoryManager.

Lemma insert_by_label_perm (r : BlockRow) (rows : list BlockRow) :
  Permutation (insert_by_label r rows) (r :: rows).
Proof.
  induction rows as [|x rows IH]; simpl; [apply Permutation_refl|].
  destruct (str_leb (r_label r) (r_label x)); [apply Permutation_refl|].
  eapply Permutation_trans; [apply perm_skip, IH | apply perm_swap].
Qed.

Lemma order_by_label_perm (rows : list BlockRow) :
  Permutation (order_by_label rows) rows.
Proof.
  induction rows as [|x rows IH]; simpl; [constructor|].
  eapply Permutation_trans; [apply insert_by_label_perm | apply perm_skip, IH].
Qed.

Lemma has_label_true (l : jsstring) (b : MemoryBlock) :
  has_label l b = true <-> label b = l.
Proof. apply str_eqb_eq. Qed.

(** What [load] reads mirrors the store. *)
Lemma load_mirrors (d : Database) :
  wf_db d -> mirrors (getBlocksForSession sessionId d) d.
Proof.
  intros W. unfold getBlocksForSession.
  set (rows := filter (where_session sessionId) (memory_blocks d)).
  pose proof (order_by_label_perm rows) as P.
  split.
  - rewrite map_map. simpl.
    apply (Permutation_NoDup (l := map r_label rows)).
    + apply Permutation_sym, Permutation_map, P.
    + destruct W as (_ & U & _). apply U.
  - intros b. rewrite in_map_iff. split.
    + intros (r & <- & Hr). apply (Permutation_in _ P) in Hr.
      apply filter_In in Hr. destruct Hr as [Hr S].
      apply where_session_true in S. apply getBlockByLabel_row.
      exists r. split; [|reflexivity]. rewrite <- S. simpl.
      apply find_row; assumption.
    + intros G. apply getBlockByLabel_row in G. destruct G as (r & F & ->).
      exists r. split; [reflexivity|]. apply find_some in F.
      destruct F as [Hr M]. apply where_label_true in M.
      apply (Permutation_in _ (Permutation_sym P)). apply filter_In.
      split; [assumption | apply where_session_true; tauto].
Qed.

(** A cache that mirrors the store answers [find] as the store does. *)
Lemma mirrors_find (c : list MemoryBlock) (d : Database) (l : jsstring) :
  mirrors c d -> find (has_label l) c = getBlockByLabel sessionId l d.
Proof.
  intros [ND Mi]. destruct (find (has_label l) c) as [b|] eqn:F.
  - apply find_some in F. destruct F as [Hb Lb]. apply has_label_true in Lb.
    apply Mi in Hb. rewrite Lb in Hb. symmetry; exact Hb.
  - destruct (getBlockByLabel sessionId l d) as [b|] eqn:G; [|reflexivity].
    pose proof (getBlockByLabel_label _ _ _ _ G) as Lb.
    rewrite <- Lb in G. apply Mi in G. apply (find_none _ _ F) in G.
    apply has_label_true in Lb. congruence.
Qed.

Lemma getBlocks_spec (st : State) :
  coherent st ->
  exists c, getBlocks st = (Ok c, loaded st)
            /\ memoryCache (loaded st) = Some c
            /\ db (loaded st) = db st
            /\ mirrors c (db st).
Proof.
  intros [W C]. unfold loaded, getBlocks.
  destruct (memoryCache st) as [c|] eqn:E.
  - exists c. simpl. rewrite E. auto.
  - eexists. simpl. repeat split; apply load_mirrors; assumption.
Qed.

Lemma loaded_coherent (st : State) : coherent st -> coherent (loaded st).
Proof.
  intros H. destruct (getBlocks_spec st H) as (c & _ & E & D & Mi).
  split; rewrite ?E, D; [apply H | assumption].
Qed.

Lemma loaded_loaded (st : State) : loaded (loaded st) = loaded st.
Proof.
  unfold loaded, getBlocks.
  destruct (memoryCache st) eqn:E; simpl; [rewrite E|]; reflexivity.
Qed.

Lemma stored_loaded (l : jsstring) (st : State) :
  stored l (loaded st) = stored l st.
Proof.
  unfold stored, loaded, getBlocks. destruct (memoryCache st); reflexivity.
Qed.

(** On a coherent state [getBlock] answers what the store holds. *)
Lemma getBlock_spec (l : jsstring) (st : State) :
  coherent st -> getBlock l st = (Ok (stored l st), loaded st).
Proof.
  intros H. destruct (getBlocks_spec st H) as (c & G & _ & _ & Mi).
  unfold getBlock, bind. rewrite G. unfold ret.
  rewrite (mirrors_find c (db st) l Mi). reflexivity.
Qed.

End CacheFacts.

Section CacheUpdates.

Import MemoryDatabase.
Import MemoryManager.

Lemma findIndex_none {A} (p : A -> bool) (c : list A) :
  findIndex p c = None <-> existsb p c = false.
Proof.
  induction c as [|a c IH]; simpl; [tauto|].
  destruct (p a); simpl; [split; discriminate|].
  destruct (findIndex p c); simpl.
  - split; [discriminate|]. intros H. apply IH in H. discriminate.
  - split; intros _; [apply IH|]; reflexivity.
Qed.

(** Assigning at the first index that satisfies [p], when at most one
    element does, rewrites exactly the elements that satisfy [p]. *)
Lemma assign_findIndex {A} (p : A -> bool) (x : A) (c : list A) (k : nat) :
  NoDup c ->
  (forall a b, In a c -> In b c -> p a = true -> p b = true -> a = b) ->
  findIndex p c = Some k ->
  assign k x c = map (fun b => if p b then x else b) c.
Proof.
  revert k. induction c as [|a c IH]; intros k ND U F; [discriminate|].
  inversion ND as [|? ? Hin ND']; subst. simpl in F. simpl map.
  destruct (p a) eqn:Pa.
  - inversion F; subst k. simpl. f_equal.
    rewrite <- (map_id c) at 1. apply map_ext_in. intros b Hb.
    destruct (p b) eqn:Pb; [|reflexivity].
    exfalso. apply Hin. rewrite (U a b); simpl; auto.
  - destruct (findIndex p c) as [j|] eqn:Fj; [|discriminate].
    inversion F; subst k. simpl. f_equal. apply IH; auto.
    intros; apply U; simpl; auto.
Qed.

(** Two cached blocks with one identifier are one block. *)
Lemma cache_id_unique (d : Database) (c : list MemoryBlock) (a b : MemoryBlock) :
  wf_db d -> mirrors c d -> In a c -> In b c -> id a = id b -> a = b.
Proof.
  intros W [_ Mi] Ha Hb E.
  apply Mi, getBlockByLabel_row in Ha. destruct Ha as (ra & Fa & ->).
  apply Mi, getBlockByLabel_row in Hb. destruct Hb as (rb & Fb & ->).
  apply find_some in Fa, Fb. f_equal. apply (unique_id d); tauto.
Qed.

(** The cache after [cacheUpdate] of the block that the store's update of
    label [l] returns. *)
Lemma mirrors_update (d d' : Database) (c : list MemoryBlock) (l : jsstring)
    (u : UpdateMemoryBlock) (now : Timestamp) (v : Z) (r : BlockRow) :
  wf_db d -> mirrors c d ->
  find (where_label sessionId l) (memory_blocks d) = Some r ->
  memory_blocks d' =
    map (fun row => if where_label sessionId l row
                    then set_columns u now v row else row) (memory_blocks d) ->
  let nb := row_to_block (set_columns u now v r) in
  mirrors (match findIndex (fun b => N.eqb (id b) (id nb)) c with
           | Some k => assign k nb c
           | None => c ++ [nb]
           end) d'.
Proof.
  intros W Mi F Rows nb.
  set (f := fun row => if where_label sessionId l row
                       then set_columns u now v row else row) in Rows.
  pose proof (find_some _ _ F) as [Hr Mr].
  pose proof Mr as Mr'. apply where_label_true in Mr'. destruct Mr' as [Sr Lr].
  set (old := row_to_block r).
  assert (getBlockByLabel sessionId l d = Some old) as Gold
    by (unfold getBlockByLabel; rewrite F; reflexivity).
  assert (In old c) as Hold by (apply Mi; unfold old; simpl; rewrite Lr; exact Gold).
  assert (getBlockByLabel sessionId l d' = Some nb) as Gnew.
  { unfold getBlockByLabel. rewrite Rows.
    rewrite find_map_same by (intros x; apply set_where). rewrite F. simpl.
    unfold f. rewrite Mr. reflexivity. }
  assert (forall l', l' <> l ->
            getBlockByLabel sessionId l' d' = getBlockByLabel sessionId l' d) as Gother.
  { intros l' Ne. unfold getBlockByLabel. rewrite Rows. f_equal.
    apply find_map_fixed; [intros x; apply set_where|].
    intros x Mx. unfold f. destruct (where_label sessionId l x) eqn:Mx'; [|reflexivity].
    apply where_label_true in Mx, Mx'. destruct Mx, Mx'. congruence. }
  set (p := fun b => N.eqb (id b) (id nb)).
  assert (forall b, In b c -> (p b = true <-> label b = l)) as Pl.
  { intros b Hb. unfold p. rewrite N.eqb_eq. split.
    - intros E. assert (b = old) as -> by (apply (cache_id_unique d c); auto).
      exact Lr.
    - intros E. pose proof Hb as Gb. apply Mi in Gb. rewrite E, Gold in Gb.
      inversion Gb; subst b. reflexivity. }
  destruct (findIndex p c) as [k|] eqn:Fi.
  2:{ exfalso. apply findIndex_none in Fi. rewrite existsb_false in Fi.
      specialize (Fi old Hold). unfold p in Fi. simpl in Fi.
      rewrite N.eqb_refl in Fi. discriminate. }
  destruct Mi as [ND Mi].
  rewrite (assign_findIndex p nb c k); auto.
  2:{ apply NoDup_map_inv in ND. exact ND. }
  2:{ intros a b Ha Hb Pa Pb. apply (cache_id_unique d c); auto; [split; auto|].
      unfold p in Pa, Pb. apply N.eqb_eq in Pa, Pb. congruence. }
  split.
  - rewrite map_map.
    replace (map (fun x => label (if p x then nb else x)) c) with (map label c);
      [exact ND|].
    apply map_ext_in. intros b Hb. destruct (p b) eqn:Pb; [|reflexivity].
    apply Pl in Pb; auto. rewrite Pb. symmetry. exact Lr.
  - intros b'. rewrite in_map_iff. split.
    + intros (b & <- & Hb). destruct (p b) eqn:Pb.
      * replace (label nb) with l by (symmetry; exact Lr). exact Gnew.
      * rewrite Gother; [apply Mi; exact Hb|].
        intros E. apply Pl in E; auto. congruence.
    + intros G. destruct (str_eqb (label b') l) eqn:E.
      * apply str_eqb_eq in E. rewrite E, Gnew in G. inversion G; subst b'.
        exists old. split; [|exact Hold].
        replace (p old) with true; [reflexivity|].
        symmetry. apply Pl; auto.
      * apply str_eqb_neq in E. rewrite Gother in G by assumption.
        apply Mi in G. exists b'. split; [|exact G].
        destruct (p b') eqn:Pb; [|reflexivity].
        apply Pl in Pb; auto. contradiction.
Qed.



End CacheUpdates.

(* ================================================================= *)
(** ** The store's update, in terms of blocks *)

Section StoreUpdate.

Import MemoryDatabase.

Lemma merged_row (u : UpdateMemoryBlock) (now : Timestamp) (r : BlockRow) :
  row_to_block (set_columns u now (r_version r + 1) r)
  = merged (row_to_block r) u now.
Proof.
  unfold merged, row_to_block, set_columns. simpl. f_equal.
  - destruct (u_readOnly u) as [[|]|]; reflexivity.
  - destruct (u_hidden u) as [[|]|]; reflexivity.
Qed.

Lemma db_update_outcome (s l : jsstring) (u : UpdateMemoryBlock)
    (now : Timestamp) (d : Database) (b : MemoryBlock) :
  wf_db d ->
  getBlockByLabel s l d = Some b ->
  let d' := snd (updateBlock s l u now d) in
  fst (updateBlock s l u now d) = Ok (Some (merged b u now))
  /\ getBlockByLabel s l d' = Some (merged b u now)
  /\ (forall l', l' <> l -> getBlockByLabel s l' d' = getBlockByLabel s l' d)
  /\ match u_value u with
     | Some v =>
         history_of (id b) d'
         = history_of (id b) d
           ++ [{| h_id := next_uuid d; h_blockId := id b; h_label := l;
                  h_value := v; h_version := (version b + 1)%Z;
                  h_createdAt := now; h_createdBy := lit "agent" |}]
     | None => memory_block_history d' = memory_block_history d
     end.
Proof.
  intros W G d'. apply getBlockByLabel_row in G. destruct G as (r & F & ->).
  subst d'. rewrite (db_updateBlock_found s l u now d r W F). simpl.
  rewrite merged_row. split; [reflexivity|].
  pose proof (find_some _ _ F) as [_ Mr]. split; [|split].
  - unfold getBlockByLabel. simpl.
    rewrite find_map_same by (intros x; apply set_where). rewrite F. simpl.
    rewrite Mr, merged_row. reflexivity.
  - intros l' Ne. unfold getBlockByLabel. simpl. f_equal.
    apply find_map_fixed; [intros x; apply set_where|].
    intros x Mx. destruct (where_label s l x) eqn:Mx'; [|reflexivity].
    apply where_label_true in Mx, Mx'. destruct Mx, Mx'. congruence.
  - destruct (u_value u) as [v|]; [|apply app_nil_r].
    rewrite history_of_app. simpl. rewrite N.eqb_refl. reflexivity.
Qed.

(** Creating a block leaves the blocks already stored as they are. *)
Lemma db_create_keeps (s : jsstring) (block : CreateMemoryBlock) (now : Timestamp)
    (d : Database) (s' l' : jsstring) (b : MemoryBlock) :
  wf_db d ->
  getBlockByLabel s' l' d = Some b ->
  getBlockByLabel s' l' (snd (createBlock s block now d)) = Some b.
Proof.
  intros W G. rewrite db_createBlock_result by assumption.
  destruct (existsb _ (memory_blocks d)); simpl; [exact G|].
  unfold getBlockByLabel in *. simpl. rewrite find_app.
  destruct (find (where_label s' l') (memory_blocks d)); [exact G | discriminate].
Qed.



End StoreUpdate.

(* ================================================================= *)
(** ** The manager's operations on a coherent state *)

Section ManagerFacts.

Import MemoryManager.

Lemma db_loaded (st : State) : db (loaded st) = db st.
Proof. unfold loaded, getBlocks. destruct (memoryCache st); reflexivity. Qed.

Lemma write_through_spec (l : jsstring) (u : UpdateMemoryBlock) (now : Timestamp)
    (st : State) (b : MemoryBlock) :
  coherent st -> stored l st = Some b ->
  exists st',
    write_through l u now st = (Ok (Some (merged b u now)), st')
    /\ db st' = snd (MemoryDatabase.updateBlock sessionId l u now (db st))
    /\ coherent st'.
Proof.
  intros [W C] G. unfold stored in G.
  pose proof (wf_updateBlock sessionId l u now (db st) W) as W'.
  apply getBlockByLabel_row in G. destruct G as (r & F & ->).
  unfold write_through, bind, liftDb.
  rewrite (db_updateBlock_found sessionId l u now (db st) r W F) in *.
  simpl in W'. simpl. unfold cacheUpdate, ret. simpl.
  destruct (memoryCache st) as [c|] eqn:E.
  - eexists. split; [rewrite <- merged_row; reflexivity|].
    split; [reflexivity|]. split; [exact W'|]. simpl.
    eapply (mirrors_update (db st)); [exact W | exact C | exact F | reflexivity].
  - eexists. split; [rewrite <- merged_row; reflexivity|].
    split; [reflexivity|]. split; [exact W'|]. simpl. exact I.
Qed.



Lemma mgr_updateBlock_too_long (l : jsstring) (u : UpdateMemoryBlock)
    (now : Timestamp) (st : State) (b : MemoryBlock) (msg : jsstring) :
  coherent st -> stored l st = Some b -> readOnly b = false ->
  check_length b l u = Some msg ->
  updateBlock l u now st = (Throw (Error msg), loaded st).
Proof.
  intros H G RO L. unfold updateBlock, bind.
  rewrite getBlock_spec, G, RO, L by assumption. reflexivity.
Qed.

Lemma mgr_updateBlock_ok (l : jsstring) (u : UpdateMemoryBlock)
    (now : Timestamp) (st : State) (b : MemoryBlock) :
  coherent st -> stored l st = Some b -> readOnly b = false ->
  check_length b l u = None ->
  exists st',
    updateBlock l u now st = (Ok (Some (merged b u now)), st')
    /\ db st' = snd (MemoryDatabase.updateBlock sessionId l u now (db st))
    /\ coherent st'.
Proof.
  intros H G RO L. unfold updateBlock, bind.
  rewrite getBlock_spec, G, RO, L by assumption.
  destruct (write_through_spec l u now (loaded st) b) as (st' & E & D & C).
  - apply loaded_coherent; assumption.
  - rewrite stored_loaded; assumption.
  - exists st'. rewrite db_loaded in D. auto.
Qed.


Lemma mgr_replaceBlock_unfold (l oldContent newContent : jsstring)
    (now : Timestamp) (st : State) :
  coherent st ->
  replaceBlock l oldContent newContent now st =
  match stored l st with
  | None => (Ok None, loaded st)
  | Some b =>
      if readOnly b then (Throw (Error (read_only_modified l)), loaded st)
      else if truthy oldContent && negb (includes (value b) oldContent)
      then (Throw (Error (old_content_not_found l)), loaded st)
      else updateBlock l
             (update_value
                (if truthy oldContent then replace (value b) oldContent newContent
                 else newContent))
             now (loaded st)
  end.
Proof.
  intros H. unfold replaceBlock, bind. rewrite getBlock_spec by assumption.
  destruct (stored l st) as [b|]; [|reflexivity].
  destruct (readOnly b); [reflexivity|].
  destruct (truthy oldContent && negb (includes (value b) oldContent)); reflexivity.
Qed.



End ManagerFacts.

(* ================================================================= *)
(** ** Every call keeps the state coherent *)

Section Steps.

Import MemoryManager.










(** A fresh manager on a well-formed store is coherent. *)
Lemma open_coherent (d : MemoryDatabase.Database) : wf_db d -> coherent (open d).
Proof. intros W. split; [exact W | exact I]. Qed.


End Steps.

(* ################################################################# *)
(** * The claims on the store *)

(** C1, what fails: an update of the description alone takes the version
    of the block from 1 to 2. *)
Lemma description_update_advances_version :
  exists b b',
    MemoryDatabase.getBlockByLabel MemoryManager.sessionId (lit "tasks")
      Sample.tasks_db = Some b
    /\ fst (MemoryDatabase.updateBlock MemoryManager.sessionId (lit "tasks")
              (update_description (lit "to do")) Sample.t1 Sample.tasks_db)
       = Ok (Some b')
    /\ u_value (update_description (lit "to do")) = None
    /\ value b' = value b
    /\ version b = 1%Z
    /\ version b' = 2%Z
    /\ version b' <> version b.
Proof.
  eexists. eexists. split; [vm_compute; reflexivity|].
  split; [vm_compute; reflexivity|].
  repeat split. vm_compute. discriminate.
Qed.

(** C1, amended. On a block that exists, the store's update succeeds and
    increases the version by exactly 1, whatever fields it provides.  With
    a value it stores the value (read back as provided when it is well
    formed) and appends to the history of the block a row with the new
    version and the new value; without one it leaves the value and the
    history table as they were. *)
Theorem update_advances_version
    (s l : jsstring) (u : UpdateMemoryBlock) (now : Timestamp)
    (d : MemoryDatabase.Database) (b : MemoryBlock) :
  wf_db d ->
  MemoryDatabase.getBlockByLabel s l d = Some b ->
  let d' := snd (MemoryDatabase.updateBlock s l u now d) in
  exists b',
    fst (MemoryDatabase.updateBlock s l u now d) = Ok (Some b')
    /\ MemoryDatabase.getBlockByLabel s l d' = Some b'
    /\ id b' = id b
    /\ version b' = (version b + 1)%Z
    /\ match u_value u with
       | Some v =>
           (isWellFormed v = true -> value b' = v)
           /\ history_of (id b) d'
              = history_of (id b) d
                ++ [{| h_id := MemoryDatabase.next_uuid d; h_blockId := id b;
                       h_label := l; h_value := v;
                       h_version := (version b + 1)%Z;
                       h_createdAt := now; h_createdBy := lit "agent" |}]
       | None =>
           value b' = value b
           /\ MemoryDatabase.memory_block_history d'
              = MemoryDatabase.memory_block_history d
       end.
Proof.
  intros W G d'.
  destruct (db_update_outcome s l u now d b W G) as (R & G' & _ & Hist).
  exists (merged b u now). fold d' in G', Hist.
  repeat (split; [first [exact R | exact G' | reflexivity]|]).
  simpl. destruct (u_value u); split; auto.
Qed.

(** The witness of [update_advances_version]: the description of [tasks]. *)
Lemma update_advances_version_witness :
  wf_db Sample.tasks_db
  /\ exists b',
       fst (MemoryDatabase.updateBlock MemoryManager.sessionId (lit "tasks")
              (update_description (lit "to do")) Sample.t1 Sample.tasks_db)
       = Ok (Some b')
       /\ version b' = 2%Z.
Proof.
  assert (wf_db Sample.tasks_db) as W
    by (apply reachable_wf; exact (reach_step _ _ reach_empty)).
  split; [exact W|].
  destruct (update_advances_version MemoryManager.sessionId (lit "tasks")
              (update_description (lit "to do")) Sample.t1 Sample.tasks_db _
              W eq_refl)
    as (b' & R & _ & _ & V & _).
  exists b'. split; [exact R | exact V].
Defined.

(** C2, what fails: after an update of the description alone the block is
    at version 2 and its history has no row of version 2. *)
Lemma history_skips_description_update :
  exists b,
    MemoryDatabase.getBlockByLabel MemoryManager.sessionId (lit "tasks")
      Sample.described_db = Some b
    /\ (1 <= 2 <= version b)%Z
    /\ has_version 2 (history_of (id b) Sample.described_db) = false.
Proof.
  eexists. split; [vm_compute; reflexivity|].
  split; [vm_compute; split; discriminate | vm_compute; reflexivity].
Qed.

(** C2, amended. In every store that the store's interface produces from
    the empty schema, each block has a history row of version 1, and each
    history row of the block has a version between 1 and the version of the
    block; an update that provides a value leaves a history row of the
    version it writes to the block, and an update that provides none writes
    the next version to the block and no history row. *)
Theorem history_rows_within_versions (d : MemoryDatabase.Database) :
  reachable d ->
  history_within d
  /\ (forall s l u now b v,
        MemoryDatabase.getBlockByLabel s l d = Some b ->
        u_value u = Some v ->
        let d' := store_step (SUpdate s l u now) d in
        exists b',
          MemoryDatabase.getBlockByLabel s l d' = Some b'
          /\ version b' = (version b + 1)%Z
          /\ has_version (version b') (history_of (id b') d') = true)
  /\ (forall s l u now b,
        MemoryDatabase.getBlockByLabel s l d = Some b ->
        u_value u = None ->
        let d' := store_step (SUpdate s l u now) d in
        exists b',
          MemoryDatabase.getBlockByLabel s l d' = Some b'
          /\ version b' = (version b + 1)%Z
          /\ MemoryDatabase.memory_block_history d'
             = MemoryDatabase.memory_block_history d).
Proof.
  intros R. split; [|split].
  - induction R as [|c d R IH]; [intros r []|].
    apply history_within_step; [apply reachable_wf|]; assumption.
  - intros s l u now b v G Hv d'.
    destruct (db_update_outcome s l u now d b (reachable_wf d R) G)
      as (_ & G' & _ & Hist).
    exists (merged b u now). split; [exact G'|]. split; [reflexivity|].
    rewrite Hv in Hist. subst d'. simpl store_step. simpl id.
    rewrite Hist. unfold has_version. rewrite existsb_app. simpl.
    rewrite Z.eqb_refl. apply orb_true_iff. right. reflexivity.
  - intros s l u now b G Hv d'.
    destruct (db_update_outcome s l u now d b (reachable_wf d R) G)
      as (_ & G' & _ & Hist).
    exists (merged b u now). split; [exact G'|]. split; [reflexivity|].
    rewrite Hv in Hist. exact Hist.
Qed.

(** The witness of [history_rows_within_versions]: [tasks] in two
    sessions, one of them updated in its value and then in its description,
    so that its history skips a version. *)
Lemma history_rows_within_versions_witness :
  let d :=
    store_step (SUpdate MemoryManager.sessionId (lit "tasks")
                  (update_description (lit "to do")) Sample.t2)
      (store_step (SUpdate MemoryManager.sessionId (lit "tasks")
                     (update_value (lit "buy milk")) Sample.t1)
         (store_step (SCreate (lit "other")
                        (Sample.spec (lit "tasks") (lit "x") 10 false) Sample.t0)
            Sample.tasks_db)) in
  reachable d
  /\ option_map version
       (MemoryDatabase.getBlockByLabel MemoryManager.sessionId (lit "tasks") d)
     = Some 3%Z
  /\ history_within d.
Proof.
  intros d.
  assert (reachable d) as R by (do 4 apply reach_step; apply reach_empty).
  split; [exact R|]. split; [reflexivity|].
  apply (history_rows_within_versions d R).
Defined.

(* ################################################################# *)
(** * The claims on the manager *)

Section ManagerOutcomes.

Import MemoryManager.

(** An accepted update: the merged block is returned and stored. *)
Lemma mgr_updateBlock_accepts (l : jsstring) (u : UpdateMemoryBlock)
    (now : Timestamp) (st : State) (b : MemoryBlock) :
  coherent st -> stored l st = Some b -> readOnly b = false ->
  check_length b l u = None ->
  exists st',
    updateBlock l u now st = (Ok (Some (merged b u now)), st')
    /\ stored l st' = Some (merged b u now)
    /\ db st' = snd (MemoryDatabase.updateBlock sessionId l u now (db st))
    /\ coherent st'.
Proof.
  intros H G RO L.
  destruct (mgr_updateBlock_ok l u now st b H G RO L) as (st' & E & D & C).
  exists st'. split; [exact E|]. split; [|split; assumption].
  unfold stored. rewrite D.
  destruct (db_update_outcome sessionId l u now (db st) b) as (_ & G' & _);
    [apply H | exact G | exact G'].
Qed.

(** The length test on an update that provides a value alone. *)
Lemma check_length_value (b : MemoryBlock) (l v : jsstring) :
  check_length b l (update_value v) =
  if longer_than v (charLimit b)
  then Some (exceeds_charLimit (length v) (charLimit b) l)
  else None.
Proof. reflexivity. Qed.

(** An update of the value alone, on a state whose cache is loaded. *)
Lemma mgr_update_value (l v : jsstring) (now : Timestamp) (st : State)
    (b : MemoryBlock) :
  coherent st -> stored l st = Some b -> readOnly b = false ->
  if longer_than v (charLimit b)
  then updateBlock l (update_value v) now (loaded st)
       = (Throw (Error (exceeds_charLimit (length v) (charLimit b) l)), loaded st)
  else exists st',
         updateBlock l (update_value v) now (loaded st)
         = (Ok (Some (merged b (update_value v) now)), st')
         /\ stored l st' = Some (merged b (update_value v) now)
         /\ db st' = snd (MemoryDatabase.updateBlock sessionId l (update_value v)
                            now (db st))
         /\ coherent st'.
Proof.
  intros H G RO. pose proof (loaded_coherent st H) as HL.
  assert (stored l (loaded st) = Some b) as GL by (rewrite stored_loaded; exact G).
  destruct (longer_than v (charLimit b)) eqn:Lg.
  - rewrite (mgr_updateBlock_too_long l (update_value v) now (loaded st) b
               (exceeds_charLimit (length v) (charLimit b) l)); auto.
    + rewrite loaded_loaded. reflexivity.
    + rewrite check_length_value, Lg. reflexivity.
  - destruct (mgr_updateBlock_accepts l (update_value v) now (loaded st) b)
      as (st' & E & Sv & D & C); auto.
    + rewrite check_length_value, Lg. reflexivity.
    + exists st'. rewrite db_loaded in D. auto.
Qed.

End ManagerOutcomes.





(** A value together with a raised limit is still tested against the old
    limit: 26 characters with a new limit of 100 are refused for [project],
    whose limit is 20. *)
Remark raised_limit_is_tested_against_the_old_one :
  fst (MemoryManager.updateBlock (lit "project")
         {| u_value := Some (lit "abcdefghijklmnopqrstuvwxyz");
            u_description := None; u_charLimit := Some 100%Z;
            u_readOnly := None; u_hidden := None; u_metadata := None |}
         Sample.t1 (MemoryManager.open Sample.project_db))
  = Throw (Error (MemoryManager.exceeds_charLimit 26 20 (lit "project"))).
Proof. reflexivity. Qed.






(** The two appends of the specification, one after the other. *)
Example append_milk_then_eggs :
  let st1 := step (AppendBlock (lit "tasks") (lit "buy milk") Sample.t1)
                  (MemoryManager.open Sample.tasks_db) in
  let st2 := step (AppendBlock (lit "tasks") (lit "buy eggs") Sample.t2) st1 in
  option_map value (stored (lit "tasks") st1) = Some (lit "buy milk")
  /\ option_map value (stored (lit "tasks") st2)
     = Some (lit "buy milk" ++ [newline] ++ lit "buy eggs").
Proof. split; vm_compute; reflexivity. Qed.



(** C4, the failing input: on [project], holding [hello world], replacing
    [world] by the three characters dollar, ampersand, exclamation mark
    stores [hello world!]: the first two are read as the pattern that
    stands for the matched text, not as the new content. *)
Lemma replace_reads_dollar_patterns :
  exists b b' st',
    stored (lit "project") (MemoryManager.open Sample.project_db) = Some b
    /\ value b = lit "hello " ++ lit "world"
    /\ MemoryManager.replaceBlock (lit "project") (lit "world") (lit "$&!")
         Sample.t1 (MemoryManager.open Sample.project_db) = (Ok (Some b'), st')
    /\ value b' = lit "hello world!"
    /\ value b' <> lit "hello " ++ lit "$&!".
Proof.
  eexists. eexists. eexists.
  split; [vm_compute; reflexivity|].
  split; [reflexivity|].
  split; [vm_compute; reflexivity|].
  split; [reflexivity | vm_compute; discriminate].
Qed.

(** What [replaceBlock] does on a block that exists and is not read-only
    when the new content holds no dollar sign: an old content that is not
    empty and does not occur throws and touches nothing; one that occurs is
    replaced at its first occurrence; an empty one gives way to the new
    content as the whole value.  The new value goes through the length test
    of [updateBlock], and an accepted one is one version later. *)
Lemma replaceBlock_plain
    (l : jsstring) (now : Timestamp) (st : MemoryManager.State) (b : MemoryBlock) :
  coherent st -> stored l st = Some b -> readOnly b = false ->
  (forall oldContent newContent,
     oldContent <> [] -> ~ substring oldContent (value b) ->
     MemoryManager.replaceBlock l oldContent newContent now st
     = (Throw (Error (MemoryManager.old_content_not_found l)), loaded st)
     /\ stored l (loaded st) = Some b)
  /\ (forall oldContent newContent,
        oldContent <> [] -> substring oldContent (value b) ->
        ~ In dollar newContent ->
        exists pre post,
          first_occurrence oldContent (value b) pre post
          /\ ((charLimit b < Z.of_nat (length (pre ++ newContent ++ post)))%Z
              \/ exists b' st',
                   MemoryManager.replaceBlock l oldContent newContent now st
                   = (Ok (Some b'), st')
                   /\ stored l st' = Some b'
                   /\ value b' = pre ++ newContent ++ post
                   /\ version b' = (version b + 1)%Z))
  /\ (forall newContent,
        (charLimit b < Z.of_nat (length newContent))%Z
        \/ exists b' st',
             MemoryManager.replaceBlock l [] newContent now st
             = (Ok (Some b'), st')
             /\ stored l st' = Some b'
             /\ value b' = newContent
             /\ version b' = (version b + 1)%Z).
Proof.
  intros H G RO. split; [|split].
  - intros oldContent newContent NE Absent.
    rewrite mgr_replaceBlock_unfold, G, RO by assumption.
    apply truthy_nonempty in NE. rewrite NE.
    destruct (includes (value b) oldContent) eqn:I.
    + exfalso. apply Absent. apply includes_substring. exact I.
    + simpl. split; [reflexivity | rewrite stored_loaded; exact G].
  - intros oldContent newContent NE Occ Plain.
    destruct (replace_first (value b) oldContent newContent Occ Plain)
      as (pre & post & First & R).
    exists pre, post. split; [exact First|].
    rewrite mgr_replaceBlock_unfold, G, RO by assumption.
    apply truthy_nonempty in NE. rewrite NE.
    apply includes_substring in Occ. rewrite Occ. simpl. rewrite R.
    pose proof (mgr_update_value l (pre ++ newContent ++ post) now st b H G RO) as U.
    unfold MemoryManager.longer_than in U.
    destruct (charLimit b <? _)%Z eqn:Lg; [left; apply Z.ltb_lt; exact Lg|].
    right. destruct U as (st' & E & Sv & _).
    exists (merged b (update_value (pre ++ newContent ++ post)) now), st'. auto.
  - intros newContent.
    rewrite mgr_replaceBlock_unfold, G, RO by assumption. simpl.
    pose proof (mgr_update_value l newContent now st b H G RO) as U.
    unfold MemoryManager.longer_than in U.
    destruct (charLimit b <? _)%Z eqn:Lg; [left; apply Z.ltb_lt; exact Lg|].
    right. destruct U as (st' & E & Sv & _).
    exists (merged b (update_value newContent) now), st'. auto.
Qed.

(* ################################################################# *)
(** * The claim on the tools *)




(** The three failures of the manager and the absent label, through the
    tools: a read-only block, a value over the limit, an old content that
    does not occur, a label that is not stored. *)
Example tool_failures :
  fst (Tools.memory_append (lit "persona") (lit "x") Sample.t1
         (MemoryManager.open Sample.persona_db))
  = Ok {| Tools.content :=
            [lit "Error appending to memory: Block " ++ quote ++ lit "persona"
             ++ quote ++ lit " is read-only and cannot be modified"];
          Tools.details :=
            Tools.Failure (MemoryManager.read_only_modified (lit "persona")) |}
  /\ fst (Tools.memory_append (lit "project") (lit "0123456789") Sample.t1
            (MemoryManager.open Sample.project_db))
     = Ok {| Tools.content :=
               [lit "Error appending to memory: Value length (22) exceeds charLimit (20) for block "
                ++ quote ++ lit "project" ++ quote];
             Tools.details :=
               Tools.Failure
                 (MemoryManager.exceeds_charLimit 22 20 (lit "project")) |}
  /\ fst (Tools.memory_replace (lit "project") (Some (lit "mars")) (lit "moon")
            Sample.t1 (MemoryManager.open Sample.project_db))
     = Ok {| Tools.content :=
               [lit "Error updating memory: Old content not found in block "
                ++ quote ++ lit "project" ++ quote];
             Tools.details :=
               Tools.Failure
                 (MemoryManager.old_content_not_found (lit "project")) |}
  /\ fst (Tools.memory_replace (lit "plans") None (lit "moon") Sample.t1
            (MemoryManager.open Sample.project_db))
     = Ok {| Tools.content :=
               [lit "Error: Memory block 'plans' not found. Use memory_list to see available blocks."];
             Tools.details := Tools.Failure (lit "Block not found") |}.
Proof. repeat split; vm_compute; reflexivity. Qed.

(* ################################################################# *)
(** * Further properties of the manager *)

Section ManagerReads.

Import MemoryManager.

Lemma stored_of_label (l : jsstring) (st : State) (b : MemoryBlock) :
  stored l st = Some b -> label b = l.
Proof. apply getBlockByLabel_label. Qed.

Lemma mirrors_labels (c : list MemoryBlock) (d : MemoryDatabase.Database)
    (l : jsstring) :
  mirrors c d ->
  (In l (map label c) <-> MemoryDatabase.getBlockByLabel sessionId l d <> None).
Proof.
  intros Mi. rewrite <- (mirrors_find c d l Mi). split.
  - intros H F. apply in_map_iff in H. destruct H as (b & E & Hb).
    apply (find_none _ _ F) in Hb. apply str_eqb_neq in Hb. contradiction.
  - intros H. destruct (find (has_label l) c) as [b|] eqn:F; [|congruence].
    apply find_some in F. destruct F as [Hb E]. apply has_label_true in E.
    apply in_map_iff. exists b. auto.
Qed.

End ManagerReads.





Section CreateAndDelete.

Import MemoryManager.


Lemma order_by_version_one (h : MemoryBlockHistory) :
  MemoryDatabase.order_by_version_desc [h] = [h].
Proof. reflexivity. Qed.



End CreateAndDelete.





Section UpdateOutcomes.

Import MemoryManager.


End UpdateOutcomes.





(* ================================================================= *)
(** ** The size ceiling *)

Section SizeCeiling.

Import MemoryManager.







End SizeCeiling.



Section ToolReports.

Import MemoryManager.





End ToolReports.



(* ################################################################# *)
(** * Further properties of the store *)

Section StoreIdentity.

Import MemoryDatabase.

(** A row of the store after a call is a row from before, with its
    identity and a version not below, or the row just created. *)
Lemma store_step_rows (c : StoreCall) (d : Database) (r' : BlockRow) :
  wf_db d ->
  In r' (memory_blocks (store_step c d)) ->
  (exists r, In r (memory_blocks d)
             /\ r_id r = r_id r' /\ session_id r = session_id r'
             /\ r_label r = r_label r' /\ created_at r = created_at r'
             /\ (r_version r <= r_version r')%Z)
  \/ (r_id r' = next_uuid d /\ r_version r' = 1%Z).
Proof.
  intros W Hr.
  assert (forall r, In r (memory_blocks d) ->
            exists r0, In r0 (memory_blocks d)
                       /\ r_id r0 = r_id r /\ session_id r0 = session_id r
                       /\ r_label r0 = r_label r /\ created_at r0 = created_at r
                       /\ (r_version r0 <= r_version r)%Z) as Same
    by (intros r Hin; exists r; repeat split; auto; lia).
  destruct c as [s block now|s l u now|s l|s]; simpl in Hr.
  - rewrite db_createBlock_result in Hr by assumption.
    destruct (existsb _ _); simpl in Hr; [left; apply Same; exact Hr|].
    apply in_app_or in Hr. destruct Hr as [Hr|[<-|[]]].
    + left. apply Same. exact Hr.
    + right. split; reflexivity.
  - left. destruct (find (where_label s l) (memory_blocks d)) as [r|] eqn:F.
    + rewrite (db_updateBlock_found s l u now d r W F) in Hr. simpl in Hr.
      apply in_map_iff in Hr. destruct Hr as (x & <- & Hx).
      destruct (where_label s l x) eqn:Mx; [|apply Same; exact Hx].
      pose proof (find_some _ _ F) as [Hr Mr].
      assert (x = r) as ->.
      { apply where_label_true in Mx, Mr. apply (unique_row d); auto.
        all: destruct Mx, Mr; congruence. }
      exists r. simpl. repeat split; auto. lia.
    + rewrite db_updateBlock_absent in Hr by assumption. apply Same. exact Hr.
  - left. apply filter_In in Hr. apply Same. tauto.
  - left. apply filter_In in Hr. apply Same. tauto.
Qed.

Lemma store_step_next (c : StoreCall) (d : Database) :
  wf_db d -> (next_uuid d <= next_uuid (store_step c d))%N.
Proof.
  intros W. destruct c as [s block now|s l u now|s l|s]; simpl.
  - rewrite db_createBlock_result by assumption.
    destruct (existsb _ _); simpl; lia.
  - destruct (find (where_label s l) (memory_blocks d)) as [r|] eqn:F.
    + rewrite (db_updateBlock_found s l u now d r W F). simpl.
      destruct (u_value u); lia.
    + rewrite db_updateBlock_absent by assumption. simpl. lia.
  - lia.
  - lia.
Qed.

Lemma store_run_snoc (calls : list StoreCall) (c : StoreCall) (d : Database) :
  store_run (calls ++ [c]) d = store_step c (store_run calls d).
Proof. unfold store_run. rewrite fold_left_app. reflexivity. Qed.

Lemma store_run_wf (calls : list StoreCall) (d : Database) :
  wf_db d -> wf_db (store_run calls d) /\ (next_uuid d <= next_uuid (store_run calls d))%N.
Proof.
  intros W. induction calls as [|c calls IH] using rev_ind; [split; [exact W | simpl; lia]|].
  rewrite store_run_snoc. destruct IH as [W' N']. split.
  - apply wf_store_step. exact W'.
  - pose proof (store_step_next c _ W'). lia.
Qed.

Lemma getBlock_row (i : uuid) (d : Database) (b : MemoryBlock) :
  getBlock i d = Some b ->
  exists r, In r (memory_blocks d) /\ r_id r = i /\ b = row_to_block r.
Proof.
  unfold getBlock. destruct (find _ _) as [r|] eqn:F; [|discriminate].
  intros E. inversion E. apply find_some in F. destruct F as [Hr Ei].
  apply N.eqb_eq in Ei. exists r. auto.
Qed.

End StoreIdentity.

(** X9. Through any sequence of calls of the store, a block keeps its
    label and its time of creation, and its version never decreases: if
    the store holds a block under an identifier before the calls and one
    under the same identifier after them, the two agree on label and time
    of creation and the later version is not below the earlier one. *)
Theorem identity_and_version_are_kept
    (calls : list StoreCall) (d : MemoryDatabase.Database) (i : uuid)
    (b b' : MemoryBlock) :
  wf_db d ->
  MemoryDatabase.getBlock i d = Some b ->
  MemoryDatabase.getBlock i (store_run calls d) = Some b' ->
  label b' = label b /\ createdAt b' = createdAt b
  /\ (version b <= version b')%Z.
Proof.
  intros W G G'. apply getBlock_row in G. destruct G as (r & Hr & Ei & ->).
  apply getBlock_row in G'. destruct G' as (r' & Hr' & Ei' & ->). simpl.
  assert (forall r', In r' (MemoryDatabase.memory_blocks (store_run calls d)) ->
            MemoryDatabase.r_id r' = MemoryDatabase.r_id r ->
            MemoryDatabase.r_label r' = MemoryDatabase.r_label r
            /\ MemoryDatabase.created_at r' = MemoryDatabase.created_at r
            /\ (MemoryDatabase.r_version r <= MemoryDatabase.r_version r')%Z) as K.
  { clear r' Hr' Ei'.
    induction calls as [|c calls IH] using rev_ind; intros r' Hr' E.
    - simpl in Hr'. assert (r' = r) by (apply (unique_id d); auto). subst r'.
      repeat split; lia.
    - rewrite store_run_snoc in Hr'.
      destruct (store_run_wf calls d W) as [W1 N1].
      destruct (store_step_rows c _ r' W1 Hr')
        as [(r1 & H1 & E1 & _ & L1 & C1 & V1)|[Fresh _]].
      + destruct (IH r1 H1) as (L & C & V); [congruence|].
        repeat split; try congruence. lia.
      + exfalso. destruct W as (_ & _ & Br & _). specialize (Br r Hr). lia. }
  apply K; [exact Hr' | congruence].
Qed.

(** The witness of [identity_and_version_are_kept]: [tasks] through two
    updates and the creation of another block. *)
Lemma identity_and_version_are_kept_witness :
  wf_db Sample.tasks_db
  /\ option_map version (MemoryDatabase.getBlock 0%N Sample.tasks_db) = Some 1%Z
  /\ option_map version
       (MemoryDatabase.getBlock 0%N
          (store_run
             [SUpdate MemoryManager.sessionId (lit "tasks")
                (update_value (lit "a")) Sample.t1;
              SCreate MemoryManager.sessionId
                (Sample.spec (lit "notes") [] 10 false) Sample.t1;
              SUpdate MemoryManager.sessionId (lit "tasks")
                (update_description (lit "b")) Sample.t2]
             Sample.tasks_db)) = Some 3%Z
  /\ (1 <= 3)%Z.
Proof.
  assert (wf_db Sample.tasks_db) as W
    by (apply reachable_wf; exact (reach_step _ _ reach_empty)).
  split; [exact W|]. split; [reflexivity|]. split; [reflexivity|].
  exact (proj2 (proj2
    (identity_and_version_are_kept
       [SUpdate MemoryManager.sessionId (lit "tasks")
          (update_value (lit "a")) Sample.t1;
        SCreate MemoryManager.sessionId
          (Sample.spec (lit "notes") [] 10 false) Sample.t1;
        SUpdate MemoryManager.sessionId (lit "tasks")
          (update_description (lit "b")) Sample.t2]
       Sample.tasks_db 0%N _ _ W eq_refl eq_refl))).
Defined.

(* ================================================================= *)
(** ** The history of a block *)

Section HistoryOrder.

Import MemoryDatabase.





Lemma history_of_survivor (p : BlockRow -> bool) (d : Database) (r : BlockRow) :
  wf_db d -> In r (memory_blocks d) -> p r = false ->
  history_of (r_id r) (delete_where p d) = history_of (r_id r) d.
Proof.
  intros W Hr Pr. unfold history_of, delete_where. simpl.
  induction (memory_block_history d) as [|h hs IH]; [reflexivity|].
  simpl. destruct (existsb _ (filter p (memory_blocks d))) eqn:X; simpl.
  - destruct (N.eqb (h_blockId h) (r_id r)) eqn:Eh; [|exact IH].
    exfalso. apply existsb_exists in X. destruct X as (y & Hy & Ey).
    apply filter_In in Hy. destruct Hy as [Hy Py].
    apply N.eqb_eq in Eh, Ey.
    assert (y = r) by (apply (unique_id d); auto; congruence).
    subst y. congruence.
  - destruct (N.eqb (h_blockId h) (r_id r)); rewrite IH; reflexivity.
Qed.





End HistoryOrder.



(* ================================================================= *)
(** ** What the compiled text shows *)

Section CompiledText.

Lemma join_more (sep x : jsstring) (rest : list jsstring) :
  rest <> [] -> join sep (x :: rest) = x ++ sep ++ join sep rest.
Proof. destruct rest; [congruence | reflexivity]. Qed.

Lemma join_two_parts (sep : jsstring) (a b : list jsstring) :
  a <> [] -> b <> [] -> join sep (a ++ b) = join sep a ++ sep ++ join sep b.
Proof.
  intros Na Nb. induction a as [|x a IH]; [congruence|].
  destruct a as [|y a].
  - simpl app. rewrite join_more by exact Nb. reflexivity.
  - change ((x :: y :: a) ++ b) with (x :: ((y :: a) ++ b)).
    rewrite join_more by discriminate. rewrite IH by discriminate.
    rewrite (join_more sep x (y :: a)) by discriminate.
    rewrite <- !app_assoc. reflexivity.
Qed.

(** Consecutive pieces of a joined array occur joined in the result. *)
Lemma join_keeps_run (sep : jsstring) (a mid c : list jsstring) :
  mid <> [] -> substring (join sep mid) (join sep (a ++ mid ++ c)).
Proof.
  intros Nm.
  assert (substring (join sep mid) (join sep (mid ++ c))) as Inner.
  { destruct c as [|z c].
    - rewrite app_nil_r. exists [], []. rewrite app_nil_r. reflexivity.
    - rewrite join_two_parts by (exact Nm || discriminate).
      exists [], (sep ++ join sep (z :: c)). reflexivity. }
  destruct a as [|x a]; [exact Inner|].
  rewrite join_two_parts; [|discriminate|destruct mid; [congruence|discriminate]].
  destruct Inner as (pre & post & E). rewrite E.
  exists (join sep (x :: a) ++ sep ++ pre), post.
  rewrite <- !app_assoc. reflexivity.
Qed.

Lemma push_block_last (u : bool) (b : MemoryBlock) (last : bool) :
  exists tail, Compiler.push_block u b last = Compiler.push_block u b true ++ tail.
Proof.
  exists (if last then [] else [[]]). unfold Compiler.push_block.
  rewrite <- !app_assoc. simpl. rewrite <- !app_assoc. reflexivity.
Qed.

Lemma visible_block_pieces (u : bool) (len : nat) (b : MemoryBlock)
    (blocks : list MemoryBlock) :
  In b blocks -> flag (hidden b) = false ->
  forall idx, exists before after,
    concat (map (fun p => Compiler.push_block u (snd p) (negb (fst p <? len - 1)))
                (filter (fun p => visible (snd p)) (positions_from idx blocks)))
    = before ++ Compiler.push_block u b true ++ after.
Proof.
  intros Hb Vb. induction blocks as [|x blocks IH]; [contradiction|].
  intros idx. rewrite positions_from_cons. cbn [filter snd fst].
  destruct Hb as [->|Hb].
  - unfold visible at 1. rewrite Vb. cbn [negb map concat snd fst].
    destruct (push_block_last u b (negb (idx <? len - 1))) as (tail & ->).
    exists [], (tail ++ concat
      (map (fun p => Compiler.push_block u (snd p) (negb (fst p <? len - 1)))
           (filter (fun p => visible (snd p)) (positions_from (S idx) blocks)))).
    rewrite <- app_assoc. reflexivity.
  - destruct (IH Hb (S idx)) as (before & after & E).
    destruct (visible x); cbn [map concat snd fst]; rewrite E.
    + exists (Compiler.push_block u x (negb (idx <? len - 1)) ++ before), after.
      rewrite <- app_assoc. reflexivity.
    + exists before, after. reflexivity.
Qed.

Lemma block_text_joined (b : MemoryBlock) :
  join [newline] (Compiler.push_block false b true) = block_text b.
Proof.
  unfold Compiler.push_block, Compiler.head_pieces, Compiler.value_pieces,
    block_text.
  destruct (readOnly b); simpl; rewrite <- ?app_assoc; simpl;
    repeat (rewrite <- ?app_assoc; simpl; f_equal).
Qed.

End CompiledText.

(** X11. A hidden block changes the compiled text only by being the last
    element of the input: with the last element kept in place, the hidden
    blocks in front of it can all be taken out of the input, and the text
    is the same. *)
Theorem hidden_blocks_before_last_are_invisible
    (front : list MemoryBlock) (final : MemoryBlock)
    (options : option MemoryCompileOptions) :
  Compiler.compileMemory (front ++ [final]) options
  = Compiler.compileMemory
      (filter (fun b => negb (flag (hidden b))) front ++ [final]) options.
Proof.
  enough (forall acc,
            Compiler.compileMemory (acc ++ front ++ [final]) options
            = Compiler.compileMemory
                (acc ++ filter (fun b => negb (flag (hidden b))) front ++ [final])
                options) as G by exact (G []).
  induction front as [|b front IH]; intros acc; [reflexivity|].
  simpl. destruct (flag (hidden b)) eqn:Hb; simpl.
  - rewrite hidden_block_not_last_can_be_dropped;
      [apply IH | exact Hb | destruct front; discriminate].
  - change (acc ++ b :: front ++ [final])
      with (acc ++ [b] ++ (front ++ [final])).
    change (acc ++ b :: filter (fun b0 => negb (flag (hidden b0))) front ++ [final])
      with (acc ++ [b] ++ (filter (fun b0 => negb (flag (hidden b0))) front
                           ++ [final])).
    rewrite 2!(app_assoc acc [b]). apply IH.
Qed.

(** X12. Compiled without line numbers, the text contains the section of
    every block of the input that is not hidden: the label tags, the
    description, the metadata lines with the length of the value and the
    limit (and [read_only=true] for a read-only block), and the value
    itself between the value tags.  The limit is a safe integer, which the
    text shows digit for digit. *)
Theorem visible_block_is_in_the_text
    (blocks : list MemoryBlock) (options : option MemoryCompileOptions)
    (b : MemoryBlock) :
  In b blocks -> flag (hidden b) = false ->
  Compiler.shouldUseLineNumbers options = false ->
  isSafeInteger (charLimit b) = true ->
  substring (block_text b) (Compiler.compileMemory blocks options).
Proof.
  intros Hb Vb U _.
  destruct (hidden_blocks_shape blocks options) as [E _]. rewrite E.
  destruct blocks as [|x rest]; [contradiction|].
  unfold rendered. rewrite U.
  destruct (visible_block_pieces false (length (x :: rest)) b (x :: rest) Hb Vb 0)
    as (before & after & P).
  rewrite P, <- block_text_joined.
  replace (Compiler.opening
           ++ (before ++ Compiler.push_block false b true ++ after)
           ++ [lit "</memory_blocks>"])
    with ((Compiler.opening ++ before) ++ Compiler.push_block false b true
          ++ (after ++ [lit "</memory_blocks>"]))
    by (rewrite <- !app_assoc; reflexivity).
  apply join_keeps_run. unfold Compiler.push_block, Compiler.head_pieces.
  discriminate.
Qed.

(** The witness of [visible_block_is_in_the_text]: a visible block behind
    a hidden one. *)
Lemma visible_block_is_in_the_text_witness :
  substring
    (block_text (Sample.block (lit "project") (lit "hello world") 20 false false))
    (Compiler.compileMemory
       [Sample.block (lit "secret") (lit "x") 10 false true;
        Sample.block (lit "project") (lit "hello world") 20 false false]
       None).
Proof.
  apply visible_block_is_in_the_text.
  - right. left. reflexivity.
  - reflexivity.
  - reflexivity.
  - reflexivity.
Defined.

(* ================================================================= *)
(** ** The compiled text, section by section *)

Section CompiledShape.

(** Joining pieces and a last one: every piece but the last is followed by
    the separator. *)
Lemma join_with_end (sep : jsstring) (pieces : list jsstring) (c : jsstring) :
  join sep (pieces ++ [c]) = concat (map (fun x => x ++ sep) pieces) ++ c.
Proof.
  induction pieces as [|x pieces IH]; [reflexivity|].
  change ((x :: pieces) ++ [c]) with (x :: (pieces ++ [c])).
  rewrite join_more by (destruct pieces; discriminate).
  rewrite IH. simpl. rewrite <- !app_assoc. reflexivity.
Qed.

Lemma join_then_sep (sep : jsstring) (pieces : list jsstring) :
  pieces <> [] ->
  concat (map (fun x => x ++ sep) pieces) = join sep pieces ++ sep.
Proof.
  induction pieces as [|x pieces IH]; [congruence|]. intros _.
  destruct pieces as [|y pieces].
  - simpl. rewrite app_nil_r. reflexivity.
  - rewrite join_more by discriminate.
    assert (y :: pieces <> []) as NE by discriminate.
    specialize (IH NE). cbn [map concat] in IH |- *.
    rewrite IH, <- !app_assoc. reflexivity.
Qed.

Lemma numbered_nonempty (text : jsstring) : numbered (split newline text) <> [].
Proof.
  intros E. apply (f_equal (@length jsstring)) in E.
  rewrite length_numbered, length_split in E. discriminate.
Qed.

(** What the loop pushes for a block, each piece followed by a newline, is
    the section of the block followed by a newline. *)
Lemma section_pieces (u : bool) (b : MemoryBlock) :
  concat (map (fun x => x ++ [newline]) (Compiler.push_block u b true))
  = section_text u b ++ [newline].
Proof.
  unfold Compiler.push_block, Compiler.head_pieces, Compiler.value_pieces,
    section_text, value_text.
  rewrite !map_app, !concat_app. unfold jsstring in *.
  destruct u; cbv iota.
  - match goal with
    | |- context [concat (map ?f (Compiler.renderWithLineNumbers (value b)))] =>
        assert (concat (map f (Compiler.renderWithLineNumbers (value b)))
                = if truthy (value b)
                  then join [newline] (numbered (split newline (value b)))
                       ++ [newline]
                  else []) as V
    end.
    { unfold Compiler.renderWithLineNumbers.
      destruct (truthy (value b)); [|reflexivity].
      rewrite number_lines_spec. simpl app.
      apply join_then_sep, numbered_nonempty. }
    rewrite V. clear V.
    destruct (readOnly b); simpl;
      repeat (rewrite <- ?app_assoc; simpl; f_equal).
  - destruct (readOnly b); simpl;
      repeat (rewrite <- ?app_assoc; simpl; f_equal).
Qed.

Lemma push_block_tail (u : bool) (b : MemoryBlock) (last : bool) :
  Compiler.push_block u b last
  = Compiler.push_block u b true ++ (if last then [] else [[]]).
Proof.
  unfold Compiler.push_block. rewrite <- !app_assoc. simpl.
  rewrite <- !app_assoc. reflexivity.
Qed.

(** The pieces [compileMemory] joins, joined. *)
Lemma compiled_text_by_position
    (blocks : list MemoryBlock) (options : option MemoryCompileOptions) :
  blocks <> [] ->
  Compiler.compileMemory blocks options
  = lit "<memory_blocks>" ++ [newline] ++ introduction ++ [newline]
    ++ concat (map (fun p =>
                      section_text (Compiler.shouldUseLineNumbers options) (snd p)
                      ++ [newline]
                      ++ (if fst p <? length blocks - 1 then [newline] else []))
                   (rendered blocks))
    ++ lit "</memory_blocks>".
Proof.
  intros NE. destruct (hidden_blocks_shape blocks options) as [E _]. rewrite E.
  destruct blocks as [|b0 rest]; [congruence|]. clear E NE.
  set (u := Compiler.shouldUseLineNumbers options).
  set (len := length (b0 :: rest)).
  rewrite app_assoc, join_with_end, map_app, concat_app.
  change (concat (map (fun x => x ++ [newline]) Compiler.opening))
    with (lit "<memory_blocks>" ++ [newline] ++ introduction ++ [newline]).
  rewrite <- !app_assoc. do 5 f_equal.
  induction (rendered (b0 :: rest)) as [|p ps IH]; [reflexivity|].
  cbn [map concat]. rewrite map_app, concat_app, IH. f_equal.
  rewrite push_block_tail, map_app, concat_app, section_pieces.
  destruct (fst p <? len - 1); cbn [negb map concat app].
  - rewrite <- app_assoc. reflexivity.
  - rewrite app_nil_r. reflexivity.
Qed.

Lemma rendered_front (front : list MemoryBlock) (final : MemoryBlock) :
  rendered (front ++ [final])
  = filter (fun p => visible (snd p)) (positions_from 0 front)
    ++ (if visible final then [(length front, final)] else []).
Proof.
  unfold rendered. rewrite positions_from_app, filter_app. reflexivity.
Qed.

(** The text of a list that is not empty: the sections of the visible
    blocks before the last element, each followed by an empty line, then
    the section of the last element if it is visible. *)
Lemma compiled_text_normal_form
    (front : list MemoryBlock) (final : MemoryBlock)
    (options : option MemoryCompileOptions) :
  Compiler.compileMemory (front ++ [final]) options
  = lit "<memory_blocks>" ++ [newline] ++ introduction ++ [newline]
    ++ concat (map (fun b =>
                      section_text (Compiler.shouldUseLineNumbers options) b
                      ++ [newline; newline])
                   (filter visible front))
    ++ (if flag (hidden final) then []
        else section_text (Compiler.shouldUseLineNumbers options) final
             ++ [newline])
    ++ lit "</memory_blocks>".
Proof.
  rewrite compiled_text_by_position by (destruct front; discriminate).
  set (u := Compiler.shouldUseLineNumbers options).
  do 4 f_equal. rewrite rendered_front, map_app, concat_app, <- app_assoc.
  rewrite length_app. simpl length.
  replace (length front + 1 - 1) with (length front) by lia.
  f_equal.
  - rewrite <- (visible_positions front 0), map_map. f_equal.
    apply map_ext_in. intros p Hp. apply filter_In in Hp. destruct Hp as [Hp _].
    apply positions_from_bounds in Hp.
    replace (fst p <? length front) with true
      by (symmetry; apply Nat.ltb_lt; lia).
    reflexivity.
  - unfold visible. destruct (flag (hidden final)); simpl; [reflexivity|].
    rewrite Nat.ltb_irrefl, !app_nil_r. reflexivity.
Qed.

Lemma filter_visible_twice (l : list MemoryBlock) :
  filter visible (filter visible l) = filter visible l.
Proof.
  induction l as [|x l IH]; [reflexivity|].
  simpl. destruct (visible x) eqn:V; simpl; rewrite ?V, IH; reflexivity.
Qed.

Lemma all_visible (l vs : list MemoryBlock) :
  filter visible l = vs -> filter visible vs = vs.
Proof. intros <-. apply filter_visible_twice. Qed.


Lemma substring_self (p : jsstring) : substring p p.
Proof. exists [], []. rewrite app_nil_r. reflexivity. Qed.

Lemma substring_after (a p s : jsstring) :
  substring p s -> substring p (a ++ s).
Proof.
  intros (pre & post & ->). exists (a ++ pre), post.
  rewrite <- app_assoc. reflexivity.
Qed.

Lemma substring_before (a p s : jsstring) :
  substring p s -> substring p (s ++ a).
Proof.
  intros (pre & post & ->). exists pre, (post ++ a).
  rewrite <- !app_assoc. reflexivity.
Qed.

(** The section of a visible block occurs in the compiled text. *)
Lemma section_in_text
    (blocks : list MemoryBlock) (options : option MemoryCompileOptions)
    (b : MemoryBlock) :
  In b blocks -> flag (hidden b) = false ->
  substring (section_text (Compiler.shouldUseLineNumbers options) b)
            (Compiler.compileMemory blocks options).
Proof.
  intros Hb Vb.
  assert (blocks <> []) as NE by (intros ->; contradiction).
  destruct (exists_last NE) as (front & final & ->).
  rewrite compiled_text_normal_form.
  set (u := Compiler.shouldUseLineNumbers options).
  do 4 apply substring_after.
  apply in_app_or in Hb. destruct Hb as [Hb|[<-|[]]].
  - apply substring_before.
    assert (In b (filter visible front)) as Hv
      by (apply filter_In; split; [exact Hb|]; unfold visible; rewrite Vb;
          reflexivity).
    apply in_split in Hv. destruct Hv as (l1 & l2 & ->).
    rewrite map_app, concat_app. cbn [map concat].
    apply substring_after. do 2 apply substring_before. apply substring_self.
  - apply substring_after. rewrite Vb.
    do 2 apply substring_before. apply substring_self.
Qed.

Lemma value_text_in_section (u : bool) (b : MemoryBlock) :
  substring (value_text u b) (section_text u b).
Proof.
  unfold section_text. do 22 apply substring_after. apply substring_self.
Qed.

Lemma substring_chain (a b c : jsstring) :
  substring a b -> substring b c -> substring a c.
Proof.
  intros (p1 & q1 & ->) (p2 & q2 & ->).
  exists (p2 ++ p1), (q1 ++ q2). rewrite <- !app_assoc. reflexivity.
Qed.

Lemma nth_numbered_from (lines : list jsstring) (line : jsstring) :
  forall i k,
    nth_error lines i = Some line ->
    nth_error (map (fun p => of_nat (fst p + 1) ++ [arrow; 32%N] ++ snd p)
                   (positions_from k lines)) i
    = Some (of_nat (k + i + 1) ++ [arrow; 32%N] ++ line).
Proof.
  induction lines as [|x lines IH]; intros i k E; [destruct i; discriminate|].
  rewrite positions_from_cons. destruct i as [|i]; simpl in *.
  - injection E as ->. rewrite Nat.add_0_r. reflexivity.
  - rewrite (IH i (S k) E). do 3 f_equal. lia.
Qed.

(** Line [i], counted from 0, comes out with the number [i + 1]. *)
Lemma nth_numbered (lines : list jsstring) (i : nat) (line : jsstring) :
  nth_error lines i = Some line ->
  nth_error (numbered lines) i = Some (of_nat (i + 1) ++ [arrow; 32%N] ++ line).
Proof. intros E. exact (nth_numbered_from lines line i 0 E). Qed.

End CompiledShape.




(** C8, amended. For a block of the input that is not hidden, the value
    splits at the newlines into lines that, joined, are the value again.
    With line numbering on and a value that is not empty, the text holds
    between the value tags one line per line of the value, each prefixed
    with its 1-based number, the arrow and one space; with line numbering
    on and the empty value it holds no line at all between the tags; with
    line numbering off it holds the value itself between the tags, for
    every value. *)
Theorem line_numbered_value
    (blocks : list MemoryBlock) (options : option MemoryCompileOptions)
    (block : MemoryBlock) :
  In block blocks -> flag (hidden block) = false ->
  let lines := split newline (value block) in
  let useLineNumbers := Compiler.shouldUseLineNumbers options in
  let text := Compiler.compileMemory blocks options in
  let closing := lit "</value>" ++ [newline] ++ lit "</" ++ label block ++ lit ">" in
  join [newline] lines = value block
  /\ length lines = S (count_occ N.eq_dec (value block) newline)
  /\ length (numbered lines) = length lines
  /\ (forall i line,
        nth_error lines i = Some line ->
        nth_error (numbered lines) i
        = Some (of_nat (i + 1) ++ [arrow; 32%N] ++ line))
  /\ (useLineNumbers = true -> value block <> [] ->
      Compiler.value_pieces useLineNumbers block = numbered lines
      /\ substring (lit "<value>" ++ [newline]
                    ++ join [newline] (numbered lines) ++ [newline] ++ closing)
                   text)
  /\ (useLineNumbers = true -> value block = [] ->
      Compiler.value_pieces useLineNumbers block = []
      /\ substring (lit "<value>" ++ [newline] ++ closing) text)
  /\ (useLineNumbers = false ->
      Compiler.value_pieces useLineNumbers block = [value block]
      /\ substring (lit "<value>" ++ [newline]
                    ++ value block ++ [newline] ++ closing)
                   text).
Proof.
  intros Hb Vb lines u text closing.
  assert (substring (value_text u block) text) as Sub
    by (apply (substring_chain _ (section_text u block));
        [apply value_text_in_section | apply section_in_text; assumption]).
  unfold value_text in Sub. fold closing in Sub.
  split; [apply join_split|]. split; [apply length_split|].
  split; [apply length_numbered|]. split; [apply nth_numbered|].
  split; [|split]; intros U; rewrite U in *.
  - intros NE. split; [apply renderWithLineNumbers_numbered; exact NE|].
    apply truthy_nonempty in NE. rewrite NE in Sub.
    rewrite <- !app_assoc in Sub. exact Sub.
  - intros E. rewrite E in Sub. split; [|exact Sub].
    unfold Compiler.value_pieces, Compiler.renderWithLineNumbers.
    rewrite E. reflexivity.
  - split; [reflexivity|]. rewrite <- !app_assoc in Sub. exact Sub.
Qed.

(** The witness of [line_numbered_value]: a value of three lines, the
    second one empty, in a block behind a hidden one. *)
Lemma line_numbered_value_witness :
  let h := Sample.block (lit "secret") (lit "two") 100 false true in
  In Sample.three_lines [h; Sample.three_lines]
  /\ flag (hidden Sample.three_lines) = false
  /\ value Sample.three_lines <> []
  /\ substring
       (lit "<value>" ++ [newline]
        ++ lit "1" ++ [arrow; 32%N] ++ lit "alpha" ++ [newline]
        ++ lit "2" ++ [arrow; 32%N] ++ [newline]
        ++ lit "3" ++ [arrow; 32%N] ++ lit "gamma" ++ [newline]
        ++ lit "</value>" ++ [newline] ++ lit "</notes>")
       (Compiler.compileMemory [h; Sample.three_lines] Sample.anthropic).
Proof.
  intros h.
  assert (In Sample.three_lines [h; Sample.three_lines]) as Hb
    by (right; left; reflexivity).
  split; [exact Hb|]. split; [reflexivity|]. split; [discriminate|].
  destruct (line_numbered_value [h; Sample.three_lines] Sample.anthropic
              Sample.three_lines Hb eq_refl)
    as (_ & _ & _ & _ & On & _).
  destruct (On eq_refl) as [_ Sub]; [discriminate|]. exact Sub.
Defined.

(* ================================================================= *)
(** ** What the manager and the list tool show of the store *)

Section Shown.

Import MemoryManager.

Lemma cached_blocks (st : State) :
  coherent st ->
  exists c, getBlocks st = (Ok c, loaded st)
            /\ db (loaded st) = db st
            /\ (forall l b, stored l st = Some b <-> In b c /\ label b = l)
            /\ (c = [] <-> forall l, stored l st = None).
Proof.
  intros H. destruct (getBlocks_spec st H) as (c & G & _ & D & _ & Mi).
  exists c. split; [exact G|]. split; [exact D|].
  assert (forall l b, stored l st = Some b <-> In b c /\ label b = l) as St.
  { intros l b. unfold stored. split.
    - intros S. pose proof (getBlockByLabel_label _ _ _ _ S) as L.
      split; [|exact L]. apply Mi. rewrite L. exact S.
    - intros [Hb <-]. apply Mi. exact Hb. }
  split; [exact St|]. split.
  - intros -> l. destruct (stored l st) as [b|] eqn:S; [|reflexivity].
    apply St in S. destruct S as [[] _].
  - intros No. destruct c as [|b c]; [reflexivity|].
    specialize (No (label b)).
    assert (stored (label b) st = Some b) as S
      by (apply St; split; [left|]; reflexivity).
    congruence.
Qed.




End Shown.

(** X13. On a coherent manager state [compile] answers from the store and
    leaves it as it is: with no block stored the text is empty, and,
    compiled without line numbers, the text contains the section of every
    stored block that is not hidden and whose limit is a safe integer, with
    its current value. *)
Theorem compile_shows_the_store
    (options : option MemoryCompileOptions) (st : MemoryManager.State) :
  coherent st ->
  exists text,
    fst (MemoryManager.compile options st) = Ok text
    /\ MemoryManager.db (snd (MemoryManager.compile options st))
       = MemoryManager.db st
    /\ ((forall l, stored l st = None) -> text = [])
    /\ (forall l b, stored l st = Some b -> flag (hidden b) = false ->
          Compiler.shouldUseLineNumbers options = false ->
          isSafeInteger (charLimit b) = true ->
          substring (block_text b) text).
Proof.
  intros H. destruct (cached_blocks st H) as (c & G & D & St & Em).
  exists (Compiler.compileMemory c options).
  unfold MemoryManager.compile, bind. rewrite G. simpl.
  split; [reflexivity|]. split; [exact D|]. split.
  - intros No. apply Em in No. rewrite No. reflexivity.
  - intros l b S Vb U _. apply St in S. destruct S as [Hb _].
    apply visible_block_pieces with (u := false) (len := length c) (idx := 0) in Hb;
      [|exact Vb].
    destruct (hidden_blocks_shape c options) as [E _]. rewrite E.
    destruct c as [|x rest]; [destruct Hb as (? & ? & Hb); simpl in Hb;
                              destruct x; discriminate|].
    unfold rendered. rewrite U. destruct Hb as (before & after & P).
    rewrite P, <- block_text_joined.
    replace (Compiler.opening
             ++ (before ++ Compiler.push_block false b true ++ after)
             ++ [lit "</memory_blocks>"])
      with ((Compiler.opening ++ before) ++ Compiler.push_block false b true
            ++ (after ++ [lit "</memory_blocks>"]))
      by (rewrite <- !app_assoc; reflexivity).
    apply join_keeps_run. unfold Compiler.push_block, Compiler.head_pieces.
    discriminate.
Qed.

(** The witness of [compile_shows_the_store]: the store of [project]. *)
Lemma compile_shows_the_store_witness :
  coherent (MemoryManager.open Sample.project_db)
  /\ exists text,
       fst (MemoryManager.compile None (MemoryManager.open Sample.project_db))
       = Ok text
       /\ exists b,
            stored (lit "project") (MemoryManager.open Sample.project_db) = Some b
            /\ isSafeInteger (charLimit b) = true
            /\ substring (block_text b) text.
Proof.
  assert (coherent (MemoryManager.open Sample.project_db)) as H
    by (apply open_coherent; apply reachable_wf;
        exact (reach_step _ _ reach_empty)).
  split; [exact H|].
  destruct (compile_shows_the_store None _ H) as (text & E & _ & _ & Sh).
  exists text. split; [exact E|]. eexists. split; [reflexivity|].
  split; [reflexivity|].
  exact (Sh (lit "project") _ eq_refl eq_refl eq_refl eq_refl).
Defined.



(* ================================================================= *)
(** ** Replacement with a new content without dollar signs *)

Section LiteralReplace.

Import MemoryManager.



End LiteralReplace.



(* ================================================================= *)
(** ** Deleting the memory of a session *)

Section SessionDelete.

Import MemoryDatabase.

Lemma history_of_removed (p : BlockRow -> bool) (d : Database) (r : BlockRow) :
  In r (memory_blocks d) -> p r = true ->
  history_of (r_id r) (delete_where p d) = [].
Proof.
  intros Hr Pr. unfold history_of, delete_where. simpl.
  induction (memory_block_history d) as [|h hs IH]; [reflexivity|].
  simpl. destruct (existsb _ _) eqn:X; simpl; [exact IH|].
  destruct (N.eqb (h_blockId h) (r_id r)) eqn:E; [|exact IH].
  exfalso. rewrite existsb_false in X. specialize (X r).
  rewrite N.eqb_sym, E in X. discriminate X.
  apply filter_In. split; assumption.
Qed.

Lemma other_session_rows (s s' : jsstring) (rows : list BlockRow) :
  s' <> s ->
  filter (where_session s') (filter (fun r => negb (where_session s r)) rows)
  = filter (where_session s') rows.
Proof.
  intros Ne. induction rows as [|x rows IH]; [reflexivity|].
  simpl. destruct (where_session s x) eqn:A; simpl.
  - destruct (where_session s' x) eqn:B; [|exact IH].
    apply where_session_true in A, B. congruence.
  - rewrite IH. reflexivity.
Qed.

End SessionDelete.

(** X16. [deleteSessionMemory] empties one session and nothing else: after
    it the session has no block under any label and no history row of its
    former blocks is left, while every other session keeps its blocks,
    each with its history. *)
Theorem deleteSessionMemory_empties_one_session
    (s : jsstring) (d : MemoryDatabase.Database) :
  wf_db d ->
  let d' := snd (MemoryDatabase.deleteSessionMemory s d) in
  wf_db d'
  /\ MemoryDatabase.getBlocksForSession s d' = []
  /\ (forall l, MemoryDatabase.getBlockByLabel s l d' = None
                /\ MemoryDatabase.getBlockHistory s l d' = [])
  /\ (forall l b, MemoryDatabase.getBlockByLabel s l d = Some b ->
                  history_of (id b) d' = [])
  /\ (forall s', s' <> s ->
        MemoryDatabase.getBlocksForSession s' d'
        = MemoryDatabase.getBlocksForSession s' d
        /\ forall l,
             MemoryDatabase.getBlockByLabel s' l d'
             = MemoryDatabase.getBlockByLabel s' l d
             /\ MemoryDatabase.getBlockHistory s' l d'
                = MemoryDatabase.getBlockHistory s' l d).
Proof.
  intros W d'. unfold d'. clear d'. simpl.
  assert (forall l, MemoryDatabase.getBlockByLabel s l
                      (MemoryDatabase.delete_where (MemoryDatabase.where_session s) d)
                    = None) as Gone.
  { intros l. unfold MemoryDatabase.getBlockByLabel. simpl.
    rewrite find_filter_none; [reflexivity|].
    intros x Mx. apply where_label_true in Mx. destruct Mx as [Sx _].
    apply where_session_true in Sx. rewrite Sx. reflexivity. }
  split; [apply wf_delete; exact W|]. split; [|split; [|split]].
  - unfold MemoryDatabase.getBlocksForSession. simpl.
    replace (filter _ (filter _ _)) with (@nil MemoryDatabase.BlockRow);
      [reflexivity|].
    symmetry. induction (MemoryDatabase.memory_blocks d) as [|x rows IH];
      [reflexivity|].
    simpl. destruct (MemoryDatabase.where_session s x) eqn:A; simpl;
      [exact IH | rewrite A; exact IH].
  - intros l. split; [apply Gone|].
    unfold MemoryDatabase.getBlockHistory. rewrite Gone. reflexivity.
  - intros l b G. apply getBlockByLabel_row in G. destruct G as (r & F & ->).
    apply find_some in F. destruct F as [Hr Mr].
    apply where_label_true in Mr. destruct Mr as [Sr _].
    apply history_of_removed; [exact Hr|]. apply where_session_true. exact Sr.
  - intros s' Ne. split.
    + unfold MemoryDatabase.getBlocksForSession. simpl.
      rewrite other_session_rows by exact Ne. reflexivity.
    + intros l.
      assert (find (MemoryDatabase.where_label s' l)
                (filter (fun r => negb (MemoryDatabase.where_session s r))
                        (MemoryDatabase.memory_blocks d))
              = find (MemoryDatabase.where_label s' l)
                     (MemoryDatabase.memory_blocks d)) as Same.
      { apply find_filter_other. intros x Mx. apply negb_true_iff.
        destruct (MemoryDatabase.where_session s x) eqn:A; [|reflexivity].
        apply where_label_true in Mx. apply where_session_true in A.
        destruct Mx. congruence. }
      unfold MemoryDatabase.getBlockHistory, MemoryDatabase.getBlockByLabel.
      simpl MemoryDatabase.memory_blocks. rewrite Same. split; [reflexivity|].
      destruct (find (MemoryDatabase.where_label s' l)
                  (MemoryDatabase.memory_blocks d)) as [r|] eqn:F; [|reflexivity].
      simpl option_map. cbv iota. f_equal.
      apply find_some in F. destruct F as [Hr Mr].
      apply where_label_true in Mr. destruct Mr as [Sr _].
      apply (history_of_survivor (MemoryDatabase.where_session s) d r W Hr).
      destruct (MemoryDatabase.where_session s r) eqn:A; [|reflexivity].
      apply where_session_true in A. congruence.
Qed.

(** The witness of [deleteSessionMemory_empties_one_session]: [tasks] in
    two sessions, one of which is deleted. *)
Lemma deleteSessionMemory_empties_one_session_witness :
  let d := store_step (SUpdate (lit "other") (lit "tasks")
                         (update_value (lit "y")) Sample.t1)
             (store_step (SCreate (lit "other")
                            (Sample.spec (lit "tasks") (lit "x") 10 false)
                            Sample.t0)
                Sample.tasks_db) in
  let d' := snd (MemoryDatabase.deleteSessionMemory MemoryManager.sessionId d) in
  wf_db d
  /\ MemoryDatabase.getBlocksForSession MemoryManager.sessionId d' = []
  /\ MemoryDatabase.getBlockByLabel (lit "other") (lit "tasks") d'
     = MemoryDatabase.getBlockByLabel (lit "other") (lit "tasks") d
  /\ length (MemoryDatabase.getBlockHistory (lit "other") (lit "tasks") d') = 2.
Proof.
  intros d d'.
  assert (wf_db d) as W
    by (apply reachable_wf; do 3 apply reach_step; apply reach_empty).
  split; [exact W|].
  destruct (deleteSessionMemory_empties_one_session MemoryManager.sessionId d W)
    as (_ & Gone & _ & _ & Other).
  split; [exact Gone|].
  destruct (Other (lit "other")) as [_ Kept]; [discriminate|].
  destruct (Kept (lit "tasks")) as [Kb Kh].
  split; [exact Kb|]. fold d' in Kh. rewrite Kh. reflexivity.
Defined.

(* ================================================================= *)
(** ** The order in which the manager lists the blocks *)

Section CacheOrder.

Import MemoryManager.

Lemma listed_from_cache (st : State) (c : list MemoryBlock) :
  memoryCache st = Some c -> fst (listBlockLabels st) = Ok (map label c).
Proof.
  intros E. unfold listBlockLabels, bind, getBlocks. rewrite E. reflexivity.
Qed.

Lemma mgr_createBlock_cache (block : CreateMemoryBlock) (now : Timestamp)
    (st st' : State) (c : list MemoryBlock) (b : MemoryBlock) :
  coherent st -> getBlocks st = (Ok c, loaded st) ->
  createBlock block now st = (Ok b, st') ->
  memoryCache st' = Some (c ++ [b]) /\ label b = c_label block.
Proof.
  intros H G E. unfold createBlock, bind in E.
  rewrite getBlock_spec in E by assumption.
  destruct (stored (c_label block) st) as [x|] eqn:Sx; [discriminate|].
  cbv zeta in E. destruct (longer_than _ _); [discriminate|].
  destruct (getBlocks_spec st H) as (c0 & G0 & E0 & D & Mi).
  rewrite G in G0. injection G0 as <-.
  destruct H as [W _].
  unfold liftDb in E. rewrite D in E.
  rewrite (db_createBlock_result sessionId block now (db st) W) in E.
  unfold stored, MemoryDatabase.getBlockByLabel in Sx.
  assert (existsb (MemoryDatabase.where_label sessionId (c_label block))
            (MemoryDatabase.memory_blocks (db st)) = false) as Ex.
  { rewrite existsb_find. destruct (find _ _); [discriminate | reflexivity]. }
  rewrite Ex in E. simpl in E. unfold cacheUpdate, ret in E. simpl in E.
  rewrite E0 in E.
  assert (findIndex
            (fun x => N.eqb (id x) (MemoryDatabase.next_uuid (db st))) c = None)
    as Fresh.
  { apply findIndex_none, existsb_false. intros x Hx. apply N.eqb_neq.
    destruct Mi as [_ Mi]. apply Mi, getBlockByLabel_row in Hx.
    destruct Hx as (r & F & ->). apply find_some in F. destruct F as [Hr _].
    destruct W as (_ & _ & Br & _). specialize (Br r Hr). simpl. lia. }
  rewrite Fresh in E. injection E as <- <-. split; reflexivity.
Qed.

Lemma mgr_updateBlock_cache (l : jsstring) (u : UpdateMemoryBlock)
    (now : Timestamp) (st st' : State) (c : list MemoryBlock) (b' : MemoryBlock) :
  coherent st -> getBlocks st = (Ok c, loaded st) ->
  updateBlock l u now st = (Ok (Some b'), st') ->
  exists c', memoryCache st' = Some c' /\ map label c' = map label c.
Proof.
  intros H G E. unfold updateBlock, bind in E.
  rewrite getBlock_spec in E by assumption.
  destruct (stored l st) as [b|] eqn:Sb; [|discriminate].
  destruct (readOnly b); [discriminate|].
  destruct (check_length b l u); [discriminate|].
  destruct (getBlocks_spec st H) as (c0 & G0 & E0 & D & Mi).
  rewrite G in G0. injection G0 as <-.
  destruct H as [W _].
  unfold stored in Sb. pose proof Sb as Sb0.
  apply getBlockByLabel_row in Sb. destruct Sb as (r & F & ->).
  unfold write_through, bind, liftDb in E. rewrite D in E.
  rewrite (db_updateBlock_found sessionId l u now (db st) r W F) in E.
  simpl in E. unfold cacheUpdate, ret in E. simpl in E. rewrite E0 in E.
  pose proof (getBlockByLabel_label _ _ _ _ Sb0) as Lb.
  assert (In (MemoryDatabase.row_to_block r) c) as Hb
    by (apply Mi; rewrite Lb; exact Sb0).
  destruct (findIndex (fun x => N.eqb (id x) (MemoryDatabase.r_id r)) c)
    as [k|] eqn:Fi.
  - injection E as _ <-. eexists. split; [reflexivity|].
    assert (NoDup c) as ND by (apply (NoDup_map_inv label); apply Mi).
    assert (forall x y, In x c -> In y c ->
              N.eqb (id x) (MemoryDatabase.r_id r) = true ->
              N.eqb (id y) (MemoryDatabase.r_id r) = true -> x = y) as Un.
    { intros x y Hx Hy Px Py. apply N.eqb_eq in Px, Py.
      apply (cache_id_unique (db st) c); auto. congruence. }
    rewrite (assign_findIndex _ _ c k ND Un Fi).
    rewrite map_map. apply map_ext_in. intros x Hx.
    destruct (N.eqb (id x) (MemoryDatabase.r_id r)) eqn:Ix; [|reflexivity].
    apply N.eqb_eq in Ix.
    assert (x = MemoryDatabase.row_to_block r) as ->
      by (apply (cache_id_unique (db st) c); auto).
    reflexivity.
  - exfalso. apply findIndex_none in Fi. rewrite existsb_false in Fi.
    specialize (Fi _ Hb). simpl in Fi. rewrite N.eqb_refl in Fi. discriminate.
Qed.

Lemma mgr_deleteBlock_cache (l : jsstring) (st st' : State)
    (c : list MemoryBlock) :
  coherent st -> getBlocks st = (Ok c, loaded st) ->
  deleteBlock l st = (Ok true, st') ->
  memoryCache st' = Some (filter (fun b => negb (has_label l b)) c).
Proof.
  intros H G E. unfold deleteBlock, bind in E.
  rewrite getBlock_spec in E by assumption.
  destruct (stored l st) as [b|] eqn:Sb; [|discriminate].
  destruct (readOnly b); [discriminate|].
  destruct (getBlocks_spec st H) as (c0 & G0 & E0 & D & Mi).
  rewrite G in G0. injection G0 as <-.
  unfold liftDb, MemoryDatabase.deleteBlock in E. simpl in E.
  rewrite E0 in E.
  destruct (0 <? length _); [|discriminate].
  injection E as <-. reflexivity.
Qed.

Lemma labels_of_the_rest (l : jsstring) (c : list MemoryBlock) :
  map label (filter (fun b => negb (has_label l b)) c)
  = filter (fun x => negb (str_eqb x l)) (map label c).
Proof.
  induction c as [|b c IH]; [reflexivity|].
  simpl. unfold has_label at 1. destruct (str_eqb (label b) l); simpl;
    rewrite IH; reflexivity.
Qed.

End CacheOrder.

(** X17. The order in which a manager lists its blocks follows its calls,
    not the labels: a block that [createBlock] returns is listed last,
    whatever its label, which is the given one when that is a well-formed
    string; an update that returns a block leaves the list of labels as it
    is; a deletion that succeeds takes the label out and keeps the order of
    the others. *)
Theorem listing_order_follows_calls
    (st : MemoryManager.State) (labels : list jsstring) :
  coherent st ->
  fst (MemoryManager.listBlockLabels st) = Ok labels ->
  (forall block now b st',
     MemoryManager.createBlock block now st = (Ok b, st') ->
     fst (MemoryManager.listBlockLabels st') = Ok (labels ++ [label b])
     /\ (isWellFormed (c_label block) = true -> label b = c_label block))
  /\ (forall l u now b st',
        MemoryManager.updateBlock l u now st = (Ok (Some b), st') ->
        fst (MemoryManager.listBlockLabels st') = Ok labels)
  /\ (forall l st',
        MemoryManager.deleteBlock l st = (Ok true, st') ->
        fst (MemoryManager.listBlockLabels st')
        = Ok (filter (fun x => negb (str_eqb x l)) labels)).
Proof.
  intros H L. destruct (getBlocks_spec st H) as (c & G & _).
  unfold MemoryManager.listBlockLabels, bind in L. rewrite G in L.
  injection L as <-. split; [|split].
  - intros block now b st' E.
    destruct (mgr_createBlock_cache block now st st' c b H G E) as [C Lb].
    rewrite (listed_from_cache st' _ C), map_app.
    split; [reflexivity | intros _; exact Lb].
  - intros l u now b st' E.
    destruct (mgr_updateBlock_cache l u now st st' c b H G E) as (c' & C & Same).
    rewrite (listed_from_cache st' _ C), Same. reflexivity.
  - intros l st' E.
    rewrite (listed_from_cache st' _ (mgr_deleteBlock_cache l st st' c H G E)).
    rewrite labels_of_the_rest. reflexivity.
Qed.

(** The witness of [listing_order_follows_calls]: [alpha] created in a
    manager that lists [project] comes after it. *)
Lemma listing_order_follows_calls_witness :
  coherent (MemoryManager.open Sample.project_db)
  /\ fst (MemoryManager.listBlockLabels (MemoryManager.open Sample.project_db))
     = Ok [lit "project"]
  /\ fst (MemoryManager.listBlockLabels
            (snd (MemoryManager.createBlock
                    (Sample.spec (lit "alpha") [] 10 false) Sample.t1
                    (MemoryManager.open Sample.project_db))))
     = Ok [lit "project"; lit "alpha"].
Proof.
  assert (coherent (MemoryManager.open Sample.project_db)) as H
    by (apply open_coherent; apply reachable_wf;
        exact (reach_step _ _ reach_empty)).
  split; [exact H|]. split; [reflexivity|].
  destruct (listing_order_follows_calls
              (MemoryManager.open Sample.project_db) [lit "project"] H eq_refl)
    as (Cr & _ & _).
  exact (proj1 (Cr (Sample.spec (lit "alpha") [] 10 false) Sample.t1 _ _ eq_refl)).
Defined.

(* ================================================================= *)
(** ** The order of a fresh load *)

Section LoadOrder.

Import MemoryDatabase.
Import MemoryManager.

Lemma str_leb_other_way (a : jsstring) :
  forall b, str_leb a b = false -> str_leb b a = true.
Proof.
  induction a as [|x a IH]; intros [|y b] E; simpl in *;
    try discriminate; try reflexivity.
  destruct (N.ltb x y) eqn:L1; [discriminate|].
  destruct (N.eqb x y) eqn:E1.
  - apply N.eqb_eq in E1. subst y. rewrite L1, N.eqb_refl. apply IH. exact E.
  - apply N.ltb_ge in L1. apply N.eqb_neq in E1.
    replace (N.ltb y x) with true; [reflexivity|].
    symmetry. apply N.ltb_lt. lia.
Qed.

Lemma str_leb_chain (a : jsstring) :
  forall b c, str_leb a b = true -> str_leb b c = true -> str_leb a c = true.
Proof.
  induction a as [|x a IH]; intros [|y b] [|z c] A B; simpl in *;
    try discriminate; try reflexivity.
  destruct (N.ltb x y) eqn:L1.
  - apply N.ltb_lt in L1. destruct (N.ltb y z) eqn:L2.
    + apply N.ltb_lt in L2. replace (N.ltb x z) with true; [reflexivity|].
      symmetry. apply N.ltb_lt. lia.
    + destruct (N.eqb y z) eqn:E2; [|discriminate].
      apply N.eqb_eq in E2. subst z.
      replace (N.ltb x y) with true; [reflexivity|].
      symmetry. apply N.ltb_lt. exact L1.
  - destruct (N.eqb x y) eqn:E1; [|discriminate].
    apply N.eqb_eq in E1. subst y.
    destruct (N.ltb x z); [reflexivity|].
    destruct (N.eqb x z); [|discriminate]. apply (IH b c); assumption.
Qed.

Lemma str_leb_strict (a : jsstring) :
  forall b, str_leb a b = true -> a <> b -> str_ltb a b = true.
Proof.
  induction a as [|x a IH]; intros [|y b] A Ne; simpl in *;
    try discriminate; try reflexivity; [congruence|].
  destruct (N.ltb x y); [reflexivity|].
  destruct (N.eqb x y) eqn:E1; [|discriminate].
  apply N.eqb_eq in E1. subst y. apply IH; [exact A|]. congruence.
Qed.

Lemma insert_by_label_sorted (r : BlockRow) (rows : list BlockRow) :
  StronglySorted (fun a b => str_leb (r_label a) (r_label b) = true) rows ->
  StronglySorted (fun a b => str_leb (r_label a) (r_label b) = true)
                 (insert_by_label r rows).
Proof.
  induction 1 as [|x rows S IH F]; simpl; [repeat constructor|].
  destruct (str_leb (r_label r) (r_label x)) eqn:L.
  - constructor; [constructor; assumption|].
    constructor; [exact L|].
    rewrite Forall_forall in *. intros y Hy.
    apply (str_leb_chain _ (r_label x)); [exact L | apply F; exact Hy].
  - constructor; [exact IH|].
    rewrite Forall_forall in *. intros y Hy.
    apply (Permutation_in _ (insert_by_label_perm r rows)) in Hy.
    destruct Hy as [<-|Hy]; [apply str_leb_other_way; exact L | apply F; exact Hy].
Qed.

Lemma order_by_label_sorted (rows : list BlockRow) :
  StronglySorted (fun a b => str_leb (r_label a) (r_label b) = true)
                 (order_by_label rows).
Proof.
  induction rows as [|x rows IH]; simpl; [constructor|].
  apply insert_by_label_sorted. exact IH.
Qed.

Lemma strictly_sorted_labels (rows : list BlockRow) :
  NoDup (map r_label rows) ->
  StronglySorted (fun a b => str_leb (r_label a) (r_label b) = true) rows ->
  StronglySorted (fun a b => str_ltb a b = true)
                 (map label (map row_to_block rows)).
Proof.
  intros ND S. induction S as [|x rows S IH F]; simpl; [constructor|].
  inversion ND as [|? ? Nx ND']; subst.
  constructor; [apply IH; exact ND'|].
  rewrite map_map. apply Forall_forall. intros l Hl.
  apply in_map_iff in Hl. destruct Hl as (y & <- & Hy). simpl.
  rewrite Forall_forall in F. apply str_leb_strict; [apply F; exact Hy|].
  intros E. apply Nx. rewrite E. apply in_map. exact Hy.
Qed.

End LoadOrder.

(** X18. A manager without a cache lists the labels in ascending order,
    none twice: the first call loads the blocks with [ORDER BY label].
    The labels are taken below the surrogate range, where the order of the
    code units of the strings is the order of the binary collation of the
    store. *)
Theorem fresh_manager_lists_by_label (st : MemoryManager.State) :
  wf_db (MemoryManager.db st) ->
  MemoryManager.memoryCache st = None ->
  (forall l, stored l st <> None -> plain l) ->
  exists labels,
    fst (MemoryManager.listBlockLabels st) = Ok labels
    /\ StronglySorted (fun a b => str_ltb a b = true) labels
    /\ forall l, In l labels <-> stored l st <> None.
Proof.
  intros W E _.
  exists (map label (MemoryDatabase.getBlocksForSession MemoryManager.sessionId
                       (MemoryManager.db st))).
  unfold MemoryManager.listBlockLabels, bind, MemoryManager.getBlocks.
  rewrite E. simpl. split; [reflexivity|]. split.
  - unfold MemoryDatabase.getBlocksForSession.
    apply strictly_sorted_labels; [|apply order_by_label_sorted].
    apply (Permutation_NoDup
             (l := map MemoryDatabase.r_label
                     (filter (MemoryDatabase.where_session MemoryManager.sessionId)
                             (MemoryDatabase.memory_blocks (MemoryManager.db st))))).
    + apply Permutation_sym, Permutation_map, order_by_label_perm.
    + destruct W as (_ & U & _). apply U.
  - intros l. apply mirrors_labels. apply load_mirrors. exact W.
Qed.

(** The witness of [fresh_manager_lists_by_label]: a manager opened on
    the store in which [alpha] was created after [project] lists [alpha]
    first. *)
Lemma fresh_manager_lists_by_label_witness :
  let st := MemoryManager.open
              (store_step (SCreate MemoryManager.sessionId
                             (Sample.spec (lit "alpha") [] 10 false) Sample.t1)
                 Sample.project_db) in
  fst (MemoryManager.listBlockLabels st) = Ok [lit "alpha"; lit "project"]
  /\ exists labels,
       fst (MemoryManager.listBlockLabels st) = Ok labels
       /\ StronglySorted (fun a b => str_ltb a b = true) labels.
Proof.
  intros st. split; [reflexivity|].
  destruct (fresh_manager_lists_by_label st) as (labels & L & Sd & _).
  - apply reachable_wf. do 2 apply reach_step. apply reach_empty.
  - reflexivity.
  - intros l Hl. destruct (stored l st) as [b|] eqn:G; [|congruence].
    apply getBlockByLabel_row in G. destruct G as (r & F & _).
    apply find_some in F. destruct F as [Hr Mr].
    apply where_label_true in Mr. destruct Mr as [_ <-].
    destruct Hr as [<-|[<-|[]]]; repeat constructor.
  - exists labels. split; [exact L | exact Sd].
Defined.

(* ================================================================= *)
(** ** A label under which nothing is stored *)



(* ================================================================= *)
(** ** Labels are unique within a session *)

(** X20. The store's [createBlock] under a label that the session already
    holds throws, and both tables stay as they are.  Under a label that
    the session does not hold it inserts the block, returns it as it is
    then read back under the label (with the label and the value as given
    when these are well-formed strings), with version 1, and every other block
    of the store, of this session or another, stays as it is: the same
    label held by another session is no obstacle. *)
Theorem labels_are_unique_within_a_session
    (s : jsstring) (block : CreateMemoryBlock) (now : Timestamp)
    (d : MemoryDatabase.Database) :
  wf_db d ->
  let res := MemoryDatabase.createBlock s block now d in
  match MemoryDatabase.getBlockByLabel s (c_label block) d with
  | Some _ =>
      (exists e, fst res = Throw e)
      /\ MemoryDatabase.memory_blocks (snd res) = MemoryDatabase.memory_blocks d
      /\ MemoryDatabase.memory_block_history (snd res)
         = MemoryDatabase.memory_block_history d
  | None =>
      exists b,
        fst res = Ok (Some b)
        /\ MemoryDatabase.getBlockByLabel s (c_label block) (snd res) = Some b
        /\ (isWellFormed (c_label block) = true -> label b = c_label block)
        /\ (well_formed_if_given (c_value block) = true ->
             value b = or_else (c_value block) [])
        /\ version b = 1%Z
        /\ forall s' l b', MemoryDatabase.getBlockByLabel s' l d = Some b' ->
                           MemoryDatabase.getBlockByLabel s' l (snd res) = Some b'
  end.
Proof.
  intros W res. unfold res. clear res.
  pose proof (fun s' l b' => db_create_keeps s block now d s' l b' W) as Keep.
  rewrite (db_createBlock_result s block now d W) in *.
  unfold MemoryDatabase.getBlockByLabel at 1.
  rewrite existsb_find in *.
  destruct (find (MemoryDatabase.where_label s (c_label block))
              (MemoryDatabase.memory_blocks d)) as [r|] eqn:F; simpl.
  - split; [eexists; reflexivity|]. split; reflexivity.
  - eexists. split; [reflexivity|].
    split; [|split; [reflexivity|]; split; [reflexivity|];
             split; [reflexivity | exact Keep]].
    unfold MemoryDatabase.getBlockByLabel. simpl. rewrite find_app, F. simpl.
    unfold MemoryDatabase.where_label. simpl. rewrite !str_eqb_refl. reflexivity.
Qed.

(** The witness of [labels_are_unique_within_a_session]: [tasks] once
    more in the session that holds it, and in another session. *)
Lemma labels_are_unique_within_a_session_witness :
  wf_db Sample.tasks_db
  /\ (exists e,
        fst (MemoryDatabase.createBlock MemoryManager.sessionId
               (Sample.spec (lit "tasks") [] 10 false) Sample.t1 Sample.tasks_db)
        = Throw e)
  /\ exists b,
       fst (MemoryDatabase.createBlock (lit "other")
              (Sample.spec (lit "tasks") [] 10 false) Sample.t1 Sample.tasks_db)
       = Ok (Some b).
Proof.
  assert (wf_db Sample.tasks_db) as W
    by (apply reachable_wf; exact (reach_step _ _ reach_empty)).
  split; [exact W|]. split.
  - exact (proj1 (labels_are_unique_within_a_session MemoryManager.sessionId
                    (Sample.spec (lit "tasks") [] 10 false) Sample.t1
                    Sample.tasks_db W)).
  - destruct (labels_are_unique_within_a_session (lit "other")
                (Sample.spec (lit "tasks") [] 10 false) Sample.t1
                Sample.tasks_db W) as (b & E & _).
    exists b. exact E.
Defined.

(* ================================================================= *)
(** ** The memory of a session *)

Section SessionSpan.

Import MemoryDatabase.

Lemma str_ltb_not_leb (a : jsstring) :
  forall b, str_ltb a b = negb (str_leb b a).
Proof.
  induction a as [|x a IH]; intros [|y b]; simpl; try reflexivity.
  destruct (N.ltb x y) eqn:L1, (N.ltb y x) eqn:L2; simpl.
  - apply N.ltb_lt in L1, L2. lia.
  - replace (N.eqb y x) with false; [reflexivity|].
    symmetry. apply N.eqb_neq. apply N.ltb_lt in L1. lia.
  - replace (N.eqb x y) with false; [reflexivity|].
    symmetry. apply N.eqb_neq. apply N.ltb_lt in L2. lia.
  - rewrite (N.eqb_sym y x). destruct (N.eqb x y) eqn:E; [apply IH|].
    apply N.ltb_ge in L1, L2. apply N.eqb_neq in E. lia.
Qed.

Lemma str_leb_same (a : jsstring) : str_leb a a = true.
Proof.
  induction a as [|x a IH]; [reflexivity|].
  simpl. rewrite N.ltb_irrefl, N.eqb_refl. exact IH.
Qed.

(** The first [reduce] of [getSessionMemory], for any key. *)
Lemma least_key (key : MemoryBlock -> jsstring) (l : list MemoryBlock) :
  forall init,
    let m := fold_left (fun min b => if str_ltb (key b) min then key b else min)
                       l init in
    (m = init \/ exists b, In b l /\ m = key b)
    /\ str_leb m init = true
    /\ forall b, In b l -> str_leb m (key b) = true.
Proof.
  induction l as [|c l IH]; intros init; simpl.
  - split; [left; reflexivity|]. split; [apply str_leb_same | contradiction].
  - destruct (IH (if str_ltb (key c) init then key c else init))
      as (Src & Le & All).
    rewrite str_ltb_not_leb in *.
    destruct (str_leb init (key c)) eqn:L; simpl in *.
    + split; [destruct Src as [Src|(b & Hb & Src)]; [left; exact Src|];
              right; exists b; auto|].
      split; [exact Le|]. intros b [<-|Hb]; [|apply All; exact Hb].
      apply (str_leb_chain _ init); assumption.
    + apply str_leb_other_way in L.
      split; [right; destruct Src as [Src|(b & Hb & Src)];
              [exists c | exists b]; auto|].
      split; [apply (str_leb_chain _ (key c)); assumption|].
      intros b [<-|Hb]; [exact Le | apply All; exact Hb].
Qed.

(** The second [reduce] of [getSessionMemory], for any key. *)
Lemma greatest_key (key : MemoryBlock -> jsstring) (l : list MemoryBlock) :
  forall init,
    let m := fold_left (fun max b => if str_ltb max (key b) then key b else max)
                       l init in
    (m = init \/ exists b, In b l /\ m = key b)
    /\ str_leb init m = true
    /\ forall b, In b l -> str_leb (key b) m = true.
Proof.
  induction l as [|c l IH]; intros init; simpl.
  - split; [left; reflexivity|]. split; [apply str_leb_same | contradiction].
  - destruct (IH (if str_ltb init (key c) then key c else init))
      as (Src & Le & All).
    rewrite str_ltb_not_leb in *.
    destruct (str_leb (key c) init) eqn:L; simpl in *.
    + split; [destruct Src as [Src|(b & Hb & Src)]; [left; exact Src|];
              right; exists b; auto|].
      split; [exact Le|]. intros b [<-|Hb]; [|apply All; exact Hb].
      apply (str_leb_chain _ init); assumption.
    + apply str_leb_other_way in L.
      split; [right; destruct Src as [Src|(b & Hb & Src)];
              [exists c | exists b]; auto|].
      split; [apply (str_leb_chain _ (key c)); assumption|].
      intros b [<-|Hb]; [exact Le | apply All; exact Hb].
Qed.

End SessionSpan.

(** X21. [getSessionMemory] returns the blocks of the session as
    [getBlocksForSession] reads them.  For a session without blocks both
    timestamps are the current time.  Otherwise [createdAt] is the
    [createdAt] of one of the blocks and no block has an earlier one, and
    [updatedAt] is the [updatedAt] of one of the blocks and no block has a
    later one, in the order of [<] on strings. *)
Theorem session_memory_spans_its_blocks
    (s : jsstring) (now : Timestamp) (d : MemoryDatabase.Database) :
  let m := MemoryDatabase.getSessionMemory s now d in
  sm_blocks m = MemoryDatabase.getBlocksForSession s d
  /\ match sm_blocks m with
     | [] => sm_createdAt m = now /\ sm_updatedAt m = now
     | _ :: _ =>
         (exists b, In b (sm_blocks m) /\ sm_createdAt m = createdAt b)
         /\ (exists b, In b (sm_blocks m) /\ sm_updatedAt m = updatedAt b)
     end
  /\ forall b, In b (sm_blocks m) ->
       str_ltb (createdAt b) (sm_createdAt m) = false
       /\ str_ltb (sm_updatedAt m) (updatedAt b) = false.
Proof.
  unfold MemoryDatabase.getSessionMemory.
  destruct (MemoryDatabase.getBlocksForSession s d) as [|first rest] eqn:E;
    cbn [sm_blocks sm_createdAt sm_updatedAt].
  - split; [reflexivity|]. split; [split; reflexivity | contradiction].
  - destruct (least_key createdAt (first :: rest) (createdAt first))
      as (Src1 & _ & All1).
    destruct (greatest_key updatedAt (first :: rest) (updatedAt first))
      as (Src2 & _ & All2).
    split; [reflexivity|]. split; [split|].
    + destruct Src1 as [Src1|(b & Hb & Src1)];
        [exists first; rewrite Src1; split; [left|]; reflexivity
        | exists b; split; assumption].
    + destruct Src2 as [Src2|(b & Hb & Src2)];
        [exists first; rewrite Src2; split; [left|]; reflexivity
        | exists b; split; assumption].
    + intros b Hb. split.
      * rewrite str_ltb_not_leb, (All1 b Hb). reflexivity.
      * rewrite str_ltb_not_leb, (All2 b Hb). reflexivity.
Qed.

(* ================================================================= *)
(** ** The estimate of the tokens *)

Lemma join_frame_le (a b c : jsstring) (mid : list jsstring) :
  length (join [newline] ([a; b] ++ [c]))
  <= length (join [newline] ([a; b] ++ mid ++ [c])).
Proof.
  assert (forall x, length x <= length (join [newline] (mid ++ [x]))) as Tail.
  { induction mid as [|y mid IH]; intros x; [simpl; lia|].
    change ((y :: mid) ++ [x]) with (y :: (mid ++ [x])).
    rewrite join_more by (destruct mid; discriminate).
    rewrite !length_app. specialize (IH x). lia. }
  change ([a; b] ++ mid ++ [c]) with (a :: b :: (mid ++ [c])).
  rewrite join_more by discriminate.
  rewrite join_more by (destruct mid; discriminate).
  change (join [newline] ([a; b] ++ [c]))
    with (a ++ [newline] ++ b ++ [newline] ++ c).
  rewrite !length_app. do 4 apply Nat.add_le_mono_l. apply Tail.
Qed.

(** X22. [estimateCompiledMemoryTokens] is the length of the text compiled
    without options, divided by four and rounded up; it is zero for the
    empty list only: a list of hidden blocks alone still costs the tokens
    of the two markers and the introduction. *)
Theorem estimate_is_zero_for_no_blocks_only (blocks : list MemoryBlock) :
  let n := Z.of_nat (length (Compiler.compileMemory blocks None)) in
  let e := Compiler.estimateCompiledMemoryTokens blocks in
  (4 * (e - 1) < n <= 4 * e)%Z
  /\ (e = 0%Z <-> blocks = [])
  /\ (blocks <> [] ->
        (Z.of_nat (length (join [newline] (Compiler.opening
                                           ++ [lit "</memory_blocks>"]))) <= n)%Z).
Proof.
  intros n e. unfold e, Compiler.estimateCompiledMemoryTokens. fold n.
  assert (blocks <> [] ->
          (Z.of_nat (length (join [newline] (Compiler.opening
                                             ++ [lit "</memory_blocks>"]))) <= n)%Z)
    as Frame.
  { intros NE. unfold n.
    destruct (hidden_blocks_shape blocks None) as [E _]. rewrite E.
    destruct blocks as [|b rest]; [congruence|].
    apply Nat2Z.inj_le.
    exact (join_frame_le (lit "<memory_blocks>")
             (lit "The following memory blocks are currently engaged in your core memory unit:"
              ++ [newline])
             (lit "</memory_blocks>") _). }
  assert (0 < Z.of_nat (length (join [newline] (Compiler.opening
                                                ++ [lit "</memory_blocks>"]))))%Z
    as Pos by (vm_compute; reflexivity).
  split; [|split; [|exact Frame]].
  - pose proof (Z.div_mod (n + 3) 4 ltac:(lia)) as D.
    pose proof (Z.mod_pos_bound (n + 3) 4 ltac:(lia)) as B. lia.
  - split.
    + intros Z0. destruct blocks as [|b rest]; [reflexivity|].
      exfalso. assert (b :: rest <> []) as NE by discriminate.
      apply Frame in NE.
      assert (0 < (n + 3) / 4)%Z by (apply Z.div_str_pos; lia). lia.
    + intros ->. reflexivity.
Qed.
